(** * Weighted-destination standardisation of the Gateway-API conversion

    A shallow embedding of the weight handling in
    [pilot/pkg/config/kube/gateway/conversion.go]: [intSum],
    [standardizeWeights], [argsort], [buildDestination], the backend loops
    of [buildTCPDestination] and [buildHTTPDestination], and the round of
    the rule loop of [buildHTTPVirtualServices] that converts one HTTP route
    rule, with its zero-weight fault injection.

    - Go's [int] is the 64-bit two's-complement integer: a [Z] with its
      wrap-around written out.
    - Go's [float64] is IEEE 754 binary64: the specification of binary
      floating-point arithmetic of the standard library ([SpecFloat]) at
      precision 53 and infinite exponent 1024, every operation rounded on
      its own to nearest, ties to even.
    - [sort.Sort] belongs to the Go library: [argsort] and what calls it
      take it as a parameter, the theorems assume of it what the library
      documents (the elements are permuted by [Swap] and come out in the
      order of [Less]), and the insertion sort the library runs on short
      slices is given as one instance, with the proof that it keeps that
      contract.
    - The slice a caller passes is shared with the callee: the outcome of
      [standardizeWeights] holds the caller's slice as the call leaves it
      beside the slice returned.
    - A run-time panic (an index out of range) is an outcome of its own.

    The definitions come first; the proofs follow, from the binary64
    arithmetic up to the claims. *)

From Stdlib Require Import Strings.String Strings.Ascii.
From Stdlib Require Import ZArith List Bool Lia Permutation.
From Stdlib Require Import Floats.SpecFloat.
From Stdlib Require Import Reals Lra.
Import ListNotations.

Local Open Scope Z_scope.

(** ** Go's [int] *)

Module GoInt.

Definition min_int : Z := - 2 ^ 63.
Definition max_int : Z := 2 ^ 63 - 1.

(** A value of type [int]. *)
Definition in_range (z : Z) : Prop := min_int <= z <= max_int.

(** Two's-complement wrap-around of a mathematical integer. *)
Definition wrap (z : Z) : Z := (z + 2 ^ 63) mod 2 ^ 64 - 2 ^ 63.

Definition add (a b : Z) : Z := wrap (a + b).
Definition sub (a b : Z) : Z := wrap (a - b).

(** Conversion to [int32] and to [uint32]: the low 32 bits. *)
Definition toInt32 (z : Z) : Z := (z + 2 ^ 31) mod 2 ^ 32 - 2 ^ 31.
Definition toUint32 (z : Z) : Z := z mod 2 ^ 32.

End GoInt.

(** ** Go's [float64] *)

Module Float64.

Definition prec : Z := 53.
Definition emax : Z := 1024.

Definition t : Type := spec_float.

(** [float64(z)] for an integer [z]: round to nearest, ties to even. *)
Definition of_int (z : Z) : t := binary_normalize prec emax z 0 false.

Definition div (x y : t) : t := SFdiv prec emax x y.
Definition mul (x y : t) : t := SFmul prec emax x y.
Definition sub (x y : t) : t := SFsub prec emax x y.
Definition ltb (x y : t) : bool := SFltb x y.

Definition isNaN (x : t) : bool :=
  match x with S754_nan => true | _ => false end.

(** The integer part of a finite float, fraction discarded. *)
Definition trunc (x : t) : option Z :=
  match x with
  | S754_zero _ => Some 0
  | S754_finite s m e =>
      Some (cond_Zopp s (if 0 <=? e then Zpos m * 2 ^ e
                         else Zpos m / 2 ^ (- e)))
  | _ => None
  end.

(** [int(x)]: truncation towards zero.  Where the value does not fit an
    [int] (also NaN and the infinities) the language leaves the result to
    the implementation; amd64 gives the smallest [int]. *)
Definition to_int (x : t) : Z :=
  match trunc x with
  | Some z =>
      if (GoInt.min_int <=? z) && (z <=? GoInt.max_int) then z
      else GoInt.min_int
  | None => GoInt.min_int
  end.

(** The untyped constant [100] in [perc*100]. *)
Definition hundred : t := of_int 100.

End Float64.

(** ** [intSum] *)

(** [r := 0; for _, i := range n { r += i }]. *)
Definition intSum (n : list Z) : Z := fold_left GoInt.add n 0.

(** ** [argsort] *)

(** [sort.Float64Slice.Less] on two elements:
    [x < y || (isNaN(x) && !isNaN(y))]. *)
Definition float64Less (x y : Float64.t) : bool :=
  Float64.ltb x y || (Float64.isNaN x && negb (Float64.isNaN y)).

(** An [argSlice] holds the floats and the indices side by side; its [Swap]
    exchanges positions [i] and [j] of both, so an element is the pair of
    a float and the index that travels with it. *)
Definition argSlice : Type := list (Float64.t * nat).

(** [Less] of [sort.Reverse(s)] on two elements: the arguments of the
    underlying [Less] exchanged. *)
Definition reverseLess (a b : Float64.t * nat) : bool :=
  float64Less (fst b) (fst a).

(** What [sort.Sort] guarantees of the slice it leaves behind: it only ever
    calls [Swap], so the elements are permuted, and no later element is
    [Less] than an earlier one. *)
Inductive sortedBy {A : Type} (less : A -> A -> bool) : list A -> Prop :=
| sortedBy_nil : sortedBy less []
| sortedBy_cons : forall a l,
    Forall (fun b => less b a = false) l ->
    sortedBy less l -> sortedBy less (a :: l).

Definition sortContract (sortSort : argSlice -> argSlice) : Prop :=
  forall s, Permutation (sortSort s) s /\ sortedBy reverseLess (sortSort s).

(** One instance of [sort.Sort]: the insertion sort the library runs on
    short slices,
    [for i := a+1; i < b; i++ { for j := i; j > a && Less(j, j-1); j-- { Swap(j, j-1) } }].
    The sorted prefix is kept last element first, so that the element
    moving down is compared with its left neighbour. *)
Fixpoint insertDown {A : Type} (less : A -> A -> bool) (x : A)
    (revPrefix : list A) : list A :=
  match revPrefix with
  | [] => [x]
  | y :: rest =>
      if less x y then y :: insertDown less x rest else x :: revPrefix
  end.

Definition insertionSort {A : Type} (less : A -> A -> bool) (s : list A)
    : list A :=
  rev (fold_left (fun revPrefix x => insertDown less x revPrefix) s []).

Definition insertionSortReverse (s : argSlice) : argSlice :=
  insertionSort reverseLess s.

Section Standardize.

(** [sort.Sort(sort.Reverse(s))] of the Go library. *)
Variable sortSort : argSlice -> argSlice.

(** [idx[i] = i] for every [i], then the sort, then [s.idx]. *)
Definition argsort (n : list Float64.t) : list nat :=
  map snd (sortSort (combine n (seq 0 (length n)))).

(** ** [standardizeWeights] *)

(** One round of the first loop, for a weight [w]: the value appended to
    [results] and the value appended to [remainders].  The product
    [perc*100] is rounded before the subtraction: the compiler for amd64
    at its default level keeps the two operations apart. *)
Definition percent (total w : Z) : Z * Float64.t :=
  let perc := Float64.div (Float64.of_int w) (Float64.of_int total) in
  let scaled := Float64.mul perc Float64.hundred in
  let rounded := Float64.to_int scaled in
  (rounded, Float64.sub scaled (Float64.of_int rounded)).

(** [results[idx]++]; [None] is the run-time panic of an index out of
    range. *)
Fixpoint increment (idx : nat) (results : list Z) : option (list Z) :=
  match results, idx with
  | [], _ => None
  | r :: rest, O => Some (GoInt.add r 1 :: rest)
  | r :: rest, S i =>
      match increment i rest with
      | Some rest' => Some (r :: rest')
      | None => None
      end
  end.

(** The second loop:
    [for _, idx := range order { if remaining <= 0 { break }; remaining--; results[idx]++ }]. *)
Fixpoint distribute (order : list nat) (remaining : Z) (results : list Z)
    : option (list Z) :=
  match order with
  | [] => Some results
  | idx :: rest =>
      if remaining <=? 0 then Some results
      else
        match increment idx results with
        | Some results' => distribute rest (GoInt.sub remaining 1) results'
        | None => None
        end
  end.

(** The slice the caller passed, as the call leaves it, and the slice
    returned ([None]: the call panicked). *)
Record outcome : Type := mkOutcome {
  callerSlice : list Z;
  returned : option (list Z)
}.

(** Lines 673-680: the sum of the weights and, when it is zero, the
    fallback that overwrites every weight with [1] and takes the length
    as the sum.  The slice is the caller's: the overwrite is seen
    there. *)
Definition fallback (weights : list Z) : list Z * Z :=
  let total := intSum weights in
  if total =? 0 then (map (fun _ => 1) weights, Z.of_nat (length weights))
  else (weights, total).

(** The slices [results] and [remainders] after the first loop. *)
Definition firstLoop (weights : list Z) (total : Z)
    : list Z * list Float64.t :=
  (map (fun w => fst (percent total w)) weights,
   map (fun w => snd (percent total w)) weights).

Definition standardizeWeights (weights : list Z) : outcome :=
  if (length weights =? 1)%nat then mkOutcome weights (Some [0])
  else
    let '(weights, total) := fallback weights in
    let '(results, remainders) := firstLoop weights total in
    let remaining := GoInt.sub 100 (intSum results) in
    let order := argsort remainders in
    mkOutcome weights (distribute order remaining results).

End Standardize.

(** ** The callers: [buildDestination], [buildTCPDestination],
    [buildHTTPDestination] and the rule loop of [buildHTTPVirtualServices] *)

Inductive ConfigErrorReason : Type :=
| InvalidDestination
| InvalidFilter.

Record ConfigError : Type := mkConfigError {
  Reason : ConfigErrorReason;
  Message : string
}.

(** What a fallible function of the conversion gives back: its value, the
    [*ConfigError] it returns, or a run-time panic. *)
Inductive result (A : Type) : Type :=
| Ok (a : A)
| Err (e : ConfigError)
| Panic.

Arguments Ok {A} a.
Arguments Err {A} e.
Arguments Panic {A}.

Definition bind {A B : Type} (r : result A) (k : A -> result B) : result B :=
  match r with
  | Ok a => k a
  | Err e => Err e
  | Panic => Panic
  end.

Notation "x <- r ;; k" := (bind r (fun x => k))
  (at level 61, r at next level, right associativity).

(** [k8s.BackendRef]: the object reference and the optional weight. *)
Record BackendRef : Type := mkBackendRef {
  Group : option string;
  Kind : option string;
  Name : string;
  Namespace : option string;
  Port : option Z;
  Weight : option Z
}.

Record Destination : Type := mkDestination {
  Host : string;
  PortNumber : Z
}.

Record RouteDestination : Type := mkRouteDestination {
  tcpDestination : Destination;
  tcpWeight : Z
}.

Inductive HTTPRouteFilterType : Type :=
| RequestHeaderModifier
| RequestRedirect
| RequestMirror
| OtherFilterType (name : string).

Record HTTPRequestRedirectFilter : Type := mkRedirectFilter {
  Scheme : option string;
  Hostname : option string;
  RedirectFilterPort : option Z;
  StatusCode : option Z
}.

Inductive RedirectPort : Type :=
| RedirectToPort (port : Z)
| DerivePortFromRequest.

Record HTTPRedirect : Type := mkHTTPRedirect {
  RedirectCode : Z;
  Authority : string;
  RedirectScheme : string;
  RedirectPortOf : RedirectPort
}.

(** [HTTPFaultInjection] with its only field in use, the abort: the
    percentage of requests and the HTTP status. *)
Record HTTPFaultInjection : Type := mkAbort {
  AbortPercentage : Float64.t;
  AbortHttpStatus : Z
}.

(** The [Weight] field of a backend is present and equal to 0. *)
Definition zeroWeight (b : BackendRef) : bool :=
  match Weight b with
  | None => false
  | Some v => v =? 0
  end.

Definition defaultIfNil (s : option string) (d : string) : string :=
  match s with Some v => v | None => d end.

Definition emptyIfNil (s : option string) : string := defaultIfNil s EmptyString.

Definition nilOrEqual (have : option string) (expected : string) : bool :=
  match have with None => true | Some v => String.eqb v expected end.

(** [strings.Contains(s, ".")]. *)
Fixpoint containsDot (s : string) : bool :=
  match s with
  | EmptyString => false
  | String c rest => Ascii.eqb c "."%char || containsDot rest
  end.

Definition createRedirectFilter (filter : option HTTPRequestRedirectFilter)
    : option HTTPRedirect :=
  match filter with
  | None => None
  | Some f =>
      Some (mkHTTPRedirect
              (match StatusCode f with Some c => GoInt.toUint32 c | None => 0 end)
              (match Hostname f with Some h => h | None => EmptyString end)
              (match Scheme f with Some sch => sch | None => EmptyString end)
              (match RedirectFilterPort f with
               | Some p => RedirectToPort (GoInt.toUint32 p)
               | None => DerivePortFromRequest
               end))
  end.

Section Callers.

(** [sort.Sort(sort.Reverse(s))] of the Go library. *)
Variable sortSort : argSlice -> argSlice.

(** Constants of the schema package: [gvk.Service.Kind] and
    [gvk.ServiceEntry.Group]. *)
Variables serviceKind serviceEntryGroup : string.

(** The verb [%q] of [fmt.Sprintf]: its argument quoted. *)
Variable quoted : string -> string.

(** The header filter of the Gateway API and the [istio.Headers] made of
    it by [createHeadersFilter]; the route match and the
    [istio.HTTPMatchRequest] made of it by the four [create...Match]
    functions.  They pass through the code below untouched. *)
Context {HTTPRequestHeaderFilter Headers HTTPRouteMatch HTTPMatchRequest : Type}.
Variable createHeadersFilter : option HTTPRequestHeaderFilter -> option Headers.
Variable createMatch : HTTPRouteMatch -> result HTTPMatchRequest.

Record HTTPRouteFilter : Type := mkHTTPRouteFilter {
  FilterType : HTTPRouteFilterType;
  RequestHeaderModifierOf : option HTTPRequestHeaderFilter;
  RequestMirrorOf : option BackendRef;
  RequestRedirectOf : option HTTPRequestRedirectFilter
}.

Record HTTPBackendRef : Type := mkHTTPBackendRef {
  BackendRefOf : BackendRef;
  Filters : list HTTPRouteFilter
}.

Record HTTPRouteDestination : Type := mkHTTPRouteDestination {
  httpDestination : Destination;
  httpWeight : Z;
  httpHeaders : option Headers
}.

Record HTTPRouteRule : Type := mkHTTPRouteRule {
  Matches : list HTTPRouteMatch;
  RuleFilters : list HTTPRouteFilter;
  BackendRefs : option (list HTTPBackendRef)
}.

Record HTTPRoute : Type := mkHTTPRoute {
  Match : list HTTPMatchRequest;
  RouteHeaders : option Headers;
  Redirect : option HTTPRedirect;
  Mirror : option Destination;
  Fault : option HTTPFaultInjection;
  Route : list HTTPRouteDestination
}.

Definition filterTypeName (t : HTTPRouteFilterType) : string :=
  match t with
  | RequestHeaderModifier => "RequestHeaderModifier"
  | RequestRedirect => "RequestRedirect"
  | RequestMirror => "RequestMirror"
  | OtherFilterType name => name
  end.

Definition unsupportedFilter (t : HTTPRouteFilterType) : ConfigError :=
  mkConfigError InvalidFilter
    (String.append "unsupported filter type " (quoted (filterTypeName t))).

Definition buildDestination (to : BackendRef) (ns domain : string)
    : result Destination :=
  let namespace := defaultIfNil (Namespace to) ns in
  if nilOrEqual (Group to) EmptyString && nilOrEqual (Kind to) serviceKind then
    match Port to with
    | None =>
        Err (mkConfigError InvalidDestination "port is required in backendRef")
    | Some port =>
        if containsDot (Name to) then
          Err (mkConfigError InvalidDestination
                 "serviceName invalid; the name of the Service must be used, not the hostname.")
        else
          Ok (mkDestination
                (String.append (Name to)
                   (String.append "."
                      (String.append namespace
                         (String.append ".svc." domain))))
                (GoInt.toUint32 port))
    end
  else if nilOrEqual (Group to) serviceEntryGroup && nilOrEqual (Kind to) "Hostname" then
    match Port to with
    | None =>
        Err (mkConfigError InvalidDestination "port is required in backendRef")
    | Some port =>
        match Namespace to with
        | Some _ =>
            Err (mkConfigError InvalidDestination
                   "namespace may not be set with Hostname type")
        | None => Ok (mkDestination (Name to) (GoInt.toUint32 port))
        end
    end
  else
    Err (mkConfigError InvalidDestination
           (String.append "referencing unsupported backendRef: group "
              (String.append (quoted (emptyIfNil (Group to)))
                 (String.append " kind " (quoted (emptyIfNil (Kind to))))))).

(** The weight of a backend as both loops read it: [1] when the field
    is absent, the value it points to otherwise. *)
Definition weightOf (w : BackendRef) : Z :=
  match Weight w with Some v => v | None => 1 end.

(** The first loop of [buildTCPDestination]: the slices [action] and
    [weights]. *)
Definition selectTCP (forwardTo : list BackendRef)
    : list BackendRef * list Z :=
  fold_left
    (fun '(action, weights) w =>
       let wt := weightOf w in
       if wt =? 0 then (action, weights)
       else (action ++ [w], weights ++ [wt]))
    forwardTo ([], []).

(** [weights[i]]; an index out of range panics. *)
Definition index (weights : list Z) (i : nat) : result Z :=
  match nth_error weights i with Some w => Ok w | None => Panic end.

(** The call [weights = standardizeWeights(weights)]. *)
Definition standardized (weights : list Z) : result (list Z) :=
  match returned (standardizeWeights sortSort weights) with
  | Some ws => Ok ws
  | None => Panic
  end.

(** The second loop of [buildTCPDestination], from index [i] on. *)
Fixpoint tcpDestinations (ns domain : string) (weights : list Z)
    (action : list BackendRef) (i : nat) : result (list RouteDestination) :=
  match action with
  | [] => Ok []
  | fwd :: rest =>
      dst <- buildDestination fwd ns domain ;;
      w <- index weights i ;;
      res <- tcpDestinations ns domain weights rest (S i) ;;
      Ok (mkRouteDestination dst (GoInt.toInt32 w) :: res)
  end.

(** A [nil] slice of backends gives a [nil] slice of destinations; both
    are the empty list here. *)
Definition buildTCPDestination (forwardTo : option (list BackendRef))
    (ns domain : string) : result (list RouteDestination) :=
  match forwardTo with
  | None => Ok []
  | Some forwardTo =>
      let '(action, weights) := selectTCP forwardTo in
      weights <- standardized weights ;;
      tcpDestinations ns domain weights action 0
  end.

(** The first loop of [buildHTTPDestination]. *)
Definition selectHTTP (forwardTo : list HTTPBackendRef) (totalZero : bool)
    : list HTTPBackendRef * list Z :=
  fold_left
    (fun '(action, weights) w =>
       let wt := weightOf (BackendRefOf w) in
       if (wt =? 0) && negb totalZero then (action, weights)
       else (action ++ [w], weights ++ [wt]))
    forwardTo ([], []).

(** The backends the first loop of [buildHTTPDestination] keeps. *)
Definition keptHTTP (forwardTo : list HTTPBackendRef) (totalZero : bool)
    : list HTTPBackendRef :=
  if totalZero then forwardTo
  else filter (fun b => negb (zeroWeight (BackendRefOf b))) forwardTo.

(** The loop over [fwd.Filters]: the headers of the route destination. *)
Fixpoint destinationFilters (filters : list HTTPRouteFilter)
    (headers : option Headers) : result (option Headers) :=
  match filters with
  | [] => Ok headers
  | filter :: rest =>
      match FilterType filter with
      | RequestHeaderModifier =>
          destinationFilters rest
            (createHeadersFilter (RequestHeaderModifierOf filter))
      | t => Err (unsupportedFilter t)
      end
  end.

Fixpoint httpDestinations (ns domain : string) (weights : list Z)
    (action : list HTTPBackendRef) (i : nat)
    : result (list HTTPRouteDestination) :=
  match action with
  | [] => Ok []
  | fwd :: rest =>
      dst <- buildDestination (BackendRefOf fwd) ns domain ;;
      w <- index weights i ;;
      headers <- destinationFilters (Filters fwd) None ;;
      res <- httpDestinations ns domain weights rest (S i) ;;
      Ok (mkHTTPRouteDestination dst (GoInt.toInt32 w) headers :: res)
  end.

Definition buildHTTPDestination (forwardTo : option (list HTTPBackendRef))
    (ns domain : string) (totalZero : bool)
    : result (list HTTPRouteDestination) :=
  match forwardTo with
  | None => Ok []
  | Some forwardTo =>
      let '(action, weights) := selectHTTP forwardTo totalZero in
      weights <- standardized weights ;;
      httpDestinations ns domain weights action 0
  end.

(** The mirror filter carries an object reference; the weight of the
    [BackendRef] it is given here is not read, the code sets 1. *)
Definition createMirrorFilter (filter : option BackendRef) (ns domain : string)
    : result (option Destination) :=
  match filter with
  | None => Ok None
  | Some ref =>
      dst <- buildDestination
               (mkBackendRef (Group ref) (Kind ref) (Name ref)
                  (Namespace ref) (Port ref) (Some 1))
               ns domain ;;
      Ok (Some dst)
  end.

(** The loop over [r.Matches]. *)
Fixpoint convertMatches (matches : list HTTPRouteMatch)
    : result (list HTTPMatchRequest) :=
  match matches with
  | [] => Ok []
  | m :: rest =>
      m' <- createMatch m ;;
      rest' <- convertMatches rest ;;
      Ok (m' :: rest')
  end.

(** The loop over [r.Filters], on the route under construction. *)
Fixpoint routeFilters (ns domain : string) (filters : list HTTPRouteFilter)
    (vs : HTTPRoute) : result HTTPRoute :=
  match filters with
  | [] => Ok vs
  | filter :: rest =>
      match FilterType filter with
      | RequestHeaderModifier =>
          routeFilters ns domain rest
            (mkHTTPRoute (Match vs)
               (createHeadersFilter (RequestHeaderModifierOf filter))
               (Redirect vs) (Mirror vs) (Fault vs) (Route vs))
      | RequestRedirect =>
          routeFilters ns domain rest
            (mkHTTPRoute (Match vs) (RouteHeaders vs)
               (createRedirectFilter (RequestRedirectOf filter))
               (Mirror vs) (Fault vs) (Route vs))
      | RequestMirror =>
          mirror <- createMirrorFilter (RequestMirrorOf filter) ns domain ;;
          routeFilters ns domain rest
            (mkHTTPRoute (Match vs) (RouteHeaders vs) (Redirect vs)
               mirror (Fault vs) (Route vs))
      | t => Err (unsupportedFilter t)
      end
  end.

(** Lines 230-236: [zero] stays [true] unless some backend has no weight
    or a weight other than [0]. *)
Definition allZero (refs : list HTTPBackendRef) : bool :=
  forallb
    (fun w =>
       match Weight (BackendRefOf w) with
       | None => false
       | Some v => v =? 0
       end)
    refs.

Definition refsOf (refs : option (list HTTPBackendRef)) : list HTTPBackendRef :=
  match refs with Some l => l | None => [] end.

(** The 503 of lines 237-247. *)
Definition abort503 : HTTPFaultInjection := mkAbort Float64.hundred 503.

(** One round of the loop over [route.Rules] in
    [buildHTTPVirtualServices]: the [istio.HTTPRoute] of a rule. *)
Definition convertRule (r : HTTPRouteRule) (ns domain : string)
    : result HTTPRoute :=
  matches <- convertMatches (Matches r) ;;
  vs <- routeFilters ns domain (RuleFilters r)
          (mkHTTPRoute matches None None None None []) ;;
  let zero := allZero (refsOf (BackendRefs r)) in
  let fault :=
    if zero && (match Redirect vs with None => true | Some _ => false end)
    then Some abort503 else Fault vs in
  route <- buildHTTPDestination (BackendRefs r) ns domain zero ;;
  Ok (mkHTTPRoute (Match vs) (RouteHeaders vs) (Redirect vs) (Mirror vs)
        fault route).

End Callers.

(** * Definitions for the statements and the proofs *)

(** The sum of a list as a mathematical integer. *)
Definition zsum (l : list Z) : Z := fold_right Z.add 0 l.

(** [i] is one of the indices in [l]. *)
Definition taken (i : nat) (l : list nat) : bool := existsb (Nat.eqb i) l.

(** The power of two [2^e] as a real number. *)
Definition bpow (e : Z) : R := powerRZ 2 e.

(** The real number a finite binary64 number stands for. *)
Definition B2R (x : spec_float) : R :=
  match x with
  | S754_finite s m e => (IZR (cond_Zopp s (Zpos m)) * bpow e)%R
  | _ => 0%R
  end.

(** A positive normal binary64 number. *)
Definition posNormal (m : positive) (e : Z) : Prop :=
  2 ^ 52 <= Zpos m < 2 ^ 53 /\ -1074 <= e <= 971.

(** [f] is one of the two binary64 neighbours of the positive real [x]. *)
Definition faithful (x : R) (f : spec_float) : Prop :=
  exists (m : positive) (e : Z),
    f = S754_finite false m e /\ posNormal m e /\
    ((IZR (Zpos m) - 1) * bpow e <= x <= (IZR (Zpos m) + 1) * bpow e)%R.

(** A binary64 number that is [+0] or positive and normal: what the
    remainders of [standardizeWeights] are on the inputs of its callers. *)
Definition nonnegNormal (f : spec_float) : Prop :=
  f = S754_zero false \/
  exists (m : positive) (e : Z), f = S754_finite false m e /\ posNormal m e.

(** The bound [2^-43] on the distance between the product [perc*100]
    computed in binary64 and the exact percentage. *)
Definition delta : R := (/ 8796093022208)%R.

(** The floor of the exact percentage [100 * w / total]. *)
Definition exactFloor (total w : Z) : Z := w * 100 / total.

(** The fractional remainder of the exact percentage, in units of
    [1 / total]: [100 * w / total - floor (100 * w / total)] is
    [exactRemainder total w / total]. *)
Definition exactRemainder (total w : Z) : Z := (w * 100) mod total.

(** The code's truncated percentage fell one below the exact floor. *)
Definition under (total w : Z) : bool :=
  fst (percent total w) =? exactFloor total w - 1.

(** A rank of the binary64 numbers along the order of
    [sort.Float64Slice]: the not-a-number first, then the negative
    infinity, the negative numbers, the zeros, the positive numbers and the
    positive infinity. *)
Definition rank (x : Float64.t) : Z * Z * Z :=
  match x with
  | S754_nan => (-3, 0, 0)
  | S754_infinity true => (-2, 0, 0)
  | S754_finite true m e => (-1, - e, - Zpos m)
  | S754_zero _ => (0, 0, 0)
  | S754_finite false m e => (1, e, Zpos m)
  | S754_infinity false => (2, 0, 0)
  end.

Definition rankLt (a b : Z * Z * Z) : Prop :=
  let '(a1, a2, a3) := a in
  let '(b1, b2, b3) := b in
  a1 < b1 \/ (a1 = b1 /\ (a2 < b2 \/ (a2 = b2 /\ a3 < b3))).

(** How many indices of [l] satisfy [p]. *)
Definition count (p : nat -> bool) (l : list nat) : Z :=
  zsum (map (fun i => if p i then 1 else 0) l).

(** The largest-remainder apportionment of 100 among [weights] that sum
    to [total], following the words of the specification: every entry is
    the floor of its exact percentage or one more, the entries sum to 100,
    and no entry left at its floor has a larger fractional remainder than
    an entry that received an extra unit. *)
Definition largestRemainder (total : Z) (weights out : list Z) : Prop :=
  length out = length weights /\
  zsum out = 100 /\
  (forall i, (i < length weights)%nat ->
     nth i out 0 = exactFloor total (nth i weights 0) \/
     nth i out 0 = exactFloor total (nth i weights 0) + 1) /\
  (forall i j, (i < length weights)%nat -> (j < length weights)%nat ->
     nth i out 0 = exactFloor total (nth i weights 0) + 1 ->
     nth j out 0 = exactFloor total (nth j weights 0) ->
     exactRemainder total (nth j weights 0)
       <= exactRemainder total (nth i weights 0)).

(** * Binary digits and right shifts *)

Lemma digits2_pos_bounds (p : positive) :
  2 ^ (Zpos (digits2_pos p) - 1) <= Zpos p < 2 ^ Zpos (digits2_pos p).
Proof.
  induction p as [p IH | p IH | ]; cbn [digits2_pos].
  - rewrite Pos2Z.inj_succ.
    replace (Z.succ (Zpos (digits2_pos p)) - 1) with (Z.succ (Zpos (digits2_pos p) - 1)) by lia.
    rewrite !Z.pow_succ_r by lia. lia.
  - rewrite Pos2Z.inj_succ.
    replace (Z.succ (Zpos (digits2_pos p)) - 1) with (Z.succ (Zpos (digits2_pos p) - 1)) by lia.
    rewrite !Z.pow_succ_r by lia. lia.
  - cbn. lia.
Qed.

Lemma digits2_pos_unique (p : positive) (d : Z) :
  2 ^ (d - 1) <= Zpos p < 2 ^ d -> Zpos (digits2_pos p) = d.
Proof.
  intros [Hlo Hhi].
  pose proof (digits2_pos_bounds p) as [Hlo' Hhi'].
  assert (0 < d).
  { destruct (Z.ltb_spec 0 d); [assumption|].
    rewrite (Z.pow_neg_r 2 (d - 1)) in Hlo by lia.
    destruct (Z.eqb_spec d 0); [subst; cbn in Hhi; lia|].
    rewrite Z.pow_neg_r in Hhi by lia. lia. }
  destruct (Z.lt_trichotomy (Zpos (digits2_pos p)) d) as [Hlt | [Heq | Hgt]];
    [exfalso | assumption | exfalso].
  - assert (2 ^ Zpos (digits2_pos p) <= 2 ^ (d - 1))
      by (apply Z.pow_le_mono_r; lia).
    lia.
  - assert (2 ^ d <= 2 ^ (Zpos (digits2_pos p) - 1))
      by (apply Z.pow_le_mono_r; lia).
    lia.
Qed.

Lemma iter_pos_nat {A : Type} (f : A -> A) (p : positive) (x : A) :
  SpecFloat.iter_pos f p x = Nat.iter (Pos.to_nat p) f x.
Proof.
  revert x.
  induction p as [p IH | p IH | ]; intros x; cbn [SpecFloat.iter_pos].
  - rewrite !IH, Pos2Nat.inj_xI.
    replace (S (2 * Pos.to_nat p))%nat with (Pos.to_nat p + (Pos.to_nat p + 1))%nat by lia.
    rewrite !Nat.iter_add. reflexivity.
  - rewrite !IH, Pos2Nat.inj_xO.
    replace (2 * Pos.to_nat p)%nat with (Pos.to_nat p + Pos.to_nat p)%nat by lia.
    rewrite Nat.iter_add. reflexivity.
  - reflexivity.
Qed.

Lemma shr_1_m (mrs : shr_record) :
  0 <= shr_m mrs -> shr_m (shr_1 mrs) = shr_m mrs / 2.
Proof.
  destruct mrs as [m r s]; cbn [shr_m].
  intros Hm. rewrite <- Z.div2_div.
  destruct m as [ | [p | p | ] | p ]; try reflexivity; lia.
Qed.

Lemma shr_iter_m (n : nat) (mrs : shr_record) :
  0 <= shr_m mrs ->
  shr_m (Nat.iter n shr_1 mrs) = shr_m mrs / 2 ^ Z.of_nat n.
Proof.
  intros Hm.
  induction n as [ | n IH].
  - cbn. now rewrite Z.div_1_r.
  - change (Nat.iter (S n) shr_1 mrs) with (shr_1 (Nat.iter n shr_1 mrs)).
    rewrite shr_1_m.
    + rewrite IH, Nat2Z.inj_succ, Z.pow_succ_r by lia.
      rewrite Z.div_div by lia. f_equal. lia.
    + rewrite IH. apply Z.div_pos; lia.
Qed.

Lemma shr_m_spec (mrs : shr_record) (e n : Z) :
  0 <= shr_m mrs ->
  shr_m (fst (shr mrs e n)) = shr_m mrs / 2 ^ Z.max 0 n /\
  snd (shr mrs e n) = e + Z.max 0 n.
Proof.
  intros Hm. unfold shr.
  destruct n as [ | p | p ]; cbn [fst snd].
  - cbn. rewrite Z.div_1_r. lia.
  - rewrite iter_pos_nat, shr_iter_m by assumption.
    rewrite positive_nat_Z. split; [f_equal; f_equal; lia | lia].
  - cbn. rewrite Z.div_1_r. lia.
Qed.

(** * Rounding to a binary64 mantissa *)

Lemma fexp_normal (e : Z) : -1074 <= e - 53 -> fexp 53 1024 e = e - 53.
Proof. unfold fexp, emin. lia. Qed.

Lemma Zdigits2_unique (m d : Z) :
  0 < m -> 2 ^ (d - 1) <= m < 2 ^ d -> Zdigits2 m = d.
Proof.
  intros Hm H. destruct m as [ | p | p ]; try lia.
  cbn [Zdigits2]. now apply digits2_pos_unique.
Qed.

Lemma Zdigits2_bounds (m : Z) :
  0 < m -> 2 ^ (Zdigits2 m - 1) <= m < 2 ^ Zdigits2 m.
Proof.
  intros Hm. destruct m as [ | p | p ]; try lia.
  apply digits2_pos_bounds.
Qed.

Lemma shr_record_of_loc_m (m : Z) (l : location) :
  shr_m (shr_record_of_loc m l) = m.
Proof. destruct l as [ | [ | | ]]; reflexivity. Qed.

Lemma round_nearest_even_cases (m : Z) (l : location) :
  round_nearest_even m l = m \/ round_nearest_even m l = m + 1.
Proof.
  destruct l as [ | [ | | ]]; cbn; auto.
  destruct (Z.even m); auto.
Qed.

Lemma shr_fexp_spec (m e : Z) (l : location) :
  0 < m -> -1074 <= Zdigits2 m + e - 53 ->
  let n := Z.max 0 (Zdigits2 m - 53) in
  shr_m (fst (shr_fexp 53 1024 m e l)) = m / 2 ^ n /\
  snd (shr_fexp 53 1024 m e l) = e + n.
Proof.
  intros Hm Hn n. unfold shr_fexp.
  rewrite fexp_normal by lia.
  pose proof (shr_m_spec (shr_record_of_loc m l) e (Zdigits2 m + e - 53 - e)) as H.
  rewrite shr_record_of_loc_m in H.
  replace (Z.max 0 (Zdigits2 m + e - 53 - e)) with n in H by lia.
  apply H. lia.
Qed.

Lemma binary_round_aux_normal (sx : bool) (mx ex : Z) (lx : location) :
  2 ^ 52 <= mx ->
  -1074 <= Zdigits2 mx + ex - 53 < 971 ->
  exists (m : positive) (e : Z),
    binary_round_aux 53 1024 sx mx ex lx = S754_finite sx m e /\
    2 ^ 52 <= Zpos m < 2 ^ 53 /\
    ex <= e /\ -1074 <= e <= 971 /\
    (Zpos m - 1) * 2 ^ (e - ex) <= mx < (Zpos m + 1) * 2 ^ (e - ex).
Proof.
  intros Hmx Hex.
  assert (Hpos : 0 < mx) by lia.
  pose proof (Zdigits2_bounds mx Hpos) as Hd.
  set (d := Zdigits2 mx) in *.
  assert (Hd53 : 53 <= d).
  { destruct (Z.leb_spec 53 d); [assumption | exfalso].
    assert (2 ^ d <= 2 ^ 52) by (apply Z.pow_le_mono_r; lia). lia. }
  pose proof (shr_fexp_spec mx ex lx Hpos ltac:(fold d; lia)) as [Hm1 He1].
  fold d in Hm1, He1.
  replace (Z.max 0 (d - 53)) with (d - 53) in Hm1, He1 by lia.
  unfold binary_round_aux.
  destruct (shr_fexp 53 1024 mx ex lx) as [mrs1 e1].
  cbn [fst snd] in Hm1, He1.
  set (n := d - 53) in *.
  set (m1 := shr_m mrs1) in *.
  assert (Hsplit : 2 ^ (d - 1) = 2 ^ 52 * 2 ^ n /\ 2 ^ d = 2 ^ 53 * 2 ^ n).
  { split; rewrite <- Z.pow_add_r by lia; f_equal; lia. }
  destruct Hsplit as [Hlo Hhi].
  assert (Hpn : 0 < 2 ^ n) by (apply Z.pow_pos_nonneg; lia).
  assert (Hm1b : 2 ^ 52 <= m1 < 2 ^ 53).
  { rewrite Hm1. split.
    - apply Z.div_le_lower_bound; lia.
    - apply Z.div_lt_upper_bound; lia. }
  assert (Hm1mx : m1 * 2 ^ n <= mx < (m1 + 1) * 2 ^ n).
  { rewrite Hm1. split.
    - rewrite Z.mul_comm. apply Z.mul_div_le. lia.
    - rewrite Z.mul_comm. rewrite Z.add_1_r. apply Z.mul_succ_div_gt. lia. }
  set (m2 := round_nearest_even m1 (loc_of_shr_record mrs1)).
  assert (Hm2 : m2 = m1 \/ m2 = m1 + 1) by apply round_nearest_even_cases.
  assert (Hm2pos : 0 < m2) by lia.
  destruct (Z.ltb_spec m2 (2 ^ 53)) as [Hlt | Hge].
  - (* no carry *)
    assert (Hd2 : Zdigits2 m2 = 53) by (apply Zdigits2_unique; [lia | cbn; lia]).
    pose proof (shr_fexp_spec m2 e1 loc_Exact Hm2pos ltac:(rewrite Hd2; lia)) as [Hm3 He3].
    rewrite Hd2 in Hm3, He3. cbn [Z.max Z.sub Z.opp Z.add Z.compare Pos.compare Pos.compare_cont] in Hm3, He3.
    change (Z.max 0 (53 - 53)) with 0 in Hm3, He3.
    destruct (shr_fexp 53 1024 m2 e1 loc_Exact) as [mrs3 e3].
    cbn [fst snd] in Hm3, He3.
    rewrite Z.pow_0_r, Z.div_1_r in Hm3. rewrite Z.add_0_r in He3.
    rewrite Hm3.
    destruct m2 as [ | p2 | p2 ] eqn:Em2; try lia.
    exists p2, e1.
    replace (e3 <=? 1024 - 53) with true by (symmetry; apply Z.leb_le; lia).
    subst e3. split; [reflexivity|].
    split; [lia|]. split; [lia|]. split; [lia|].
    replace (e1 - ex) with n by lia.
    destruct Hm2 as [-> | ->]; nia.
  - (* carry to the next binade *)
    assert (Em2 : m2 = 2 ^ 53) by lia.
    assert (Hd2 : Zdigits2 m2 = 54) by (apply Zdigits2_unique; [lia | rewrite Em2; cbn; lia]).
    pose proof (shr_fexp_spec m2 e1 loc_Exact Hm2pos ltac:(rewrite Hd2; lia)) as [Hm3 He3].
    rewrite Hd2 in Hm3, He3.
    change (Z.max 0 (54 - 53)) with 1 in Hm3, He3.
    destruct (shr_fexp 53 1024 m2 e1 loc_Exact) as [mrs3 e3].
    cbn [fst snd] in Hm3, He3.
    rewrite Hm3, Em2. change (2 ^ 53 / 2 ^ 1) with (Zpos (2 ^ 52)).
    cbv iota.
    exists (2 ^ 52)%positive, (e1 + 1).
    replace (e3 <=? 1024 - 53) with true by (symmetry; apply Z.leb_le; lia).
    subst e3. split; [reflexivity|].
    split; [cbn; lia|]. split; [lia|]. split; [lia|].
    replace (e1 + 1 - ex) with (Z.succ n) by lia.
    rewrite Z.pow_succ_r by lia.
    change (Zpos (2 ^ 52)) with (2 ^ 52).
    assert (m1 = 2 ^ 53 - 1) by lia. subst m1.
    change (2 ^ 52) with 4503599627370496 in *.
    change (2 ^ 53) with 9007199254740992 in *. nia.
Qed.

(** * Binary64 numbers as reals *)

Lemma bpow_pos (e : Z) : (0 < bpow e)%R.
Proof. apply powerRZ_lt. lra. Qed.

Lemma bpow_add (a b : Z) : bpow (a + b) = (bpow a * bpow b)%R.
Proof. apply powerRZ_add. lra. Qed.

Lemma bpow_IZR (k : Z) : 0 <= k -> bpow k = IZR (2 ^ k).
Proof.
  intros Hk. unfold bpow.
  destruct k as [ | p | p ]; try lia.
  - reflexivity.
  - rewrite <- Zpower_pos_powerRZ. reflexivity.
Qed.

Lemma bpow_opp (e : Z) : (bpow (- e) * bpow e = 1)%R.
Proof. rewrite <- bpow_add. replace (- e + e) with 0 by lia. reflexivity. Qed.

Lemma bpow_le (a b : Z) : a <= b -> (bpow a <= bpow b)%R.
Proof.
  intros H. replace b with (a + (b - a)) by lia.
  rewrite bpow_add, (bpow_IZR (b - a)) by lia.
  assert (Hp : 0 < 2 ^ (b - a)) by (apply Z.pow_pos_nonneg; lia).
  assert (H1 : 1 <= 2 ^ (b - a)) by lia.
  apply IZR_le in H1. pose proof (bpow_pos a). nra.
Qed.

Lemma binary_round_aux_faithful (mx ex : Z) (lx : location) (x : R) :
  2 ^ 52 <= mx ->
  -1074 <= Zdigits2 mx + ex - 53 < 971 ->
  (IZR mx * bpow ex <= x <= IZR (mx + 1) * bpow ex)%R ->
  faithful x (binary_round_aux 53 1024 false mx ex lx).
Proof.
  intros Hmx Hex Hx.
  destruct (binary_round_aux_normal false mx ex lx Hmx Hex)
    as (m & e & Hr & Hm & Hee & He & Hlo & Hhi).
  exists m, e. split; [assumption|]. split; [split; assumption|].
  assert (Hb : bpow e = (IZR (2 ^ (e - ex)) * bpow ex)%R).
  { rewrite <- bpow_IZR by lia. rewrite <- bpow_add. f_equal. lia. }
  rewrite Hb.
  pose proof (bpow_pos ex) as Hp.
  apply IZR_le in Hlo.
  assert (Hhi' : mx + 1 <= (Zpos m + 1) * 2 ^ (e - ex)) by lia.
  apply IZR_le in Hhi'.
  rewrite mult_IZR, minus_IZR in Hlo.
  rewrite mult_IZR, !plus_IZR in Hhi'.
  rewrite plus_IZR in Hx.
  split.
  - apply Rle_trans with (IZR mx * bpow ex)%R; [|apply Hx].
    rewrite <- Rmult_assoc. apply Rmult_le_compat_r; lra.
  - apply Rle_trans with ((IZR mx + 1) * bpow ex)%R; [apply Hx|].
    rewrite <- Rmult_assoc. apply Rmult_le_compat_r; lra.
Qed.

(** * Exact rounding, the product and the quotient *)

Lemma binary_round_aux_exact (sx : bool) (m : positive) (ex : Z) :
  posNormal m ex ->
  binary_round_aux 53 1024 sx (Zpos m) ex loc_Exact = S754_finite sx m ex.
Proof.
  intros [Hm He].
  assert (Hd : Zdigits2 (Zpos m) = 53) by (apply Zdigits2_unique; [lia | exact Hm]).
  assert (Hs : shr_fexp 53 1024 (Zpos m) ex loc_Exact
               = (Build_shr_record (Zpos m) false false, ex)).
  { unfold shr_fexp. rewrite Hd, fexp_normal by lia.
    replace (53 + ex - 53 - ex) with 0 by lia. reflexivity. }
  unfold binary_round_aux. rewrite Hs. cbn [shr_m loc_of_shr_record round_nearest_even].
  rewrite Hs. cbn [shr_m].
  replace (ex <=? 1024 - 53) with true by (symmetry; apply Z.leb_le; lia).
  reflexivity.
Qed.

Lemma Pos_iter_xO (p k : positive) :
  Zpos (Pos.iter xO p k) = Zpos p * 2 ^ Zpos k.
Proof.
  induction k as [ | k IH ] using Pos.peano_ind.
  - cbn [Pos.iter]. rewrite Pos2Z.inj_xO. change (2 ^ 1) with 2. lia.
  - rewrite Pos.iter_succ, Pos2Z.inj_xO, IH, Pos2Z.inj_succ, Z.pow_succ_r by lia.
    lia.
Qed.

Lemma shl_align_spec (p : positive) (ex ex' : Z) :
  ex' <= ex ->
  Zpos (fst (shl_align p ex ex')) = Zpos p * 2 ^ (ex - ex') /\
  snd (shl_align p ex ex') = ex'.
Proof.
  intros H. unfold shl_align.
  destruct (ex' - ex) as [ | k | k ] eqn:E; try lia; cbn [fst snd].
  - replace (ex - ex') with 0 by lia. lia.
  - rewrite Pos_iter_xO. split; [|reflexivity]. f_equal. f_equal. lia.
Qed.

Lemma binary_round_exact (sx : bool) (p : positive) (ex : Z) :
  let d := Zpos (digits2_pos p) in
  d <= 53 -> -1074 <= d + ex - 53 <= 971 ->
  exists m : positive,
    binary_round 53 1024 sx p ex = S754_finite sx m (d + ex - 53) /\
    posNormal m (d + ex - 53) /\
    Zpos m = Zpos p * 2 ^ (53 - d).
Proof.
  intros d Hd He.
  unfold binary_round. fold d. rewrite fexp_normal by lia.
  pose proof (shl_align_spec p ex (d + ex - 53) ltac:(lia)) as [Hm Hez].
  destruct (shl_align p ex (d + ex - 53)) as [mz ez]. cbn [fst snd] in Hm, Hez.
  subst ez. replace (ex - (d + ex - 53)) with (53 - d) in Hm by lia.
  pose proof (digits2_pos_bounds p) as [Hlo Hhi]. fold d in Hlo, Hhi.
  assert (Hd0 : 0 < d) by (unfold d; lia).
  assert (Hn : posNormal mz (d + ex - 53)).
  { split; [|lia]. rewrite Hm.
    replace (2 ^ 52) with (2 ^ (d - 1) * 2 ^ (53 - d))
      by (rewrite <- Z.pow_add_r by lia; f_equal; lia).
    replace (2 ^ 53) with (2 ^ d * 2 ^ (53 - d))
      by (rewrite <- Z.pow_add_r by lia; f_equal; lia).
    assert (0 < 2 ^ (53 - d)) by (apply Z.pow_pos_nonneg; lia).
    nia. }
  exists mz. rewrite binary_round_aux_exact by assumption. auto.
Qed.

Lemma B2R_pos (m : positive) (e : Z) :
  B2R (S754_finite false m e) = (IZR (Zpos m) * bpow e)%R.
Proof. reflexivity. Qed.

Lemma faithful_mul (ma mb : positive) (ea eb : Z) :
  posNormal ma ea -> posNormal mb eb ->
  -1074 <= 105 + (ea + eb) - 53 -> 106 + (ea + eb) - 53 < 971 ->
  faithful (B2R (S754_finite false ma ea) * B2R (S754_finite false mb eb))
           (SFmul 53 1024 (S754_finite false ma ea) (S754_finite false mb eb)).
Proof.
  intros [Hma Hea] [Hmb Heb] Hlo Hhi.
  cbn [SFmul xorb].
  change (2 ^ 52) with 4503599627370496 in *.
  change (2 ^ 53) with 9007199254740992 in *.
  assert (Hp : 2 ^ 104 <= Zpos (ma * mb) < 2 ^ 106).
  { rewrite Pos2Z.inj_mul.
    change (2 ^ 104) with (4503599627370496 * 4503599627370496).
    change (2 ^ 106) with (9007199254740992 * 9007199254740992). nia. }
  assert (Hd : 105 <= Zdigits2 (Zpos (ma * mb)) <= 106).
  { destruct (Z.ltb_spec (Zpos (ma * mb)) (2 ^ 105)).
    - rewrite (Zdigits2_unique _ 105); [lia | lia | ]. change (105 - 1) with 104. lia.
    - rewrite (Zdigits2_unique _ 106); [lia | lia | ]. change (106 - 1) with 105. lia. }
  apply binary_round_aux_faithful.
  - change (2 ^ 52) with 4503599627370496. change (2 ^ 104) with 20282409603651670423947251286016 in Hp. lia.
  - lia.
  - rewrite !B2R_pos, bpow_add, plus_IZR, Pos2Z.inj_mul, mult_IZR.
    pose proof (bpow_pos ea). pose proof (bpow_pos eb).
    assert (0 < bpow ea * bpow eb)%R by nra.
    split; [right; ring | nra].
Qed.

Lemma faithful_div (ma mb : positive) (ea eb : Z) :
  posNormal ma ea -> posNormal mb eb ->
  -1074 <= ea - eb - 53 -> 54 + (ea - eb - 53) - 53 < 971 ->
  faithful (B2R (S754_finite false ma ea) / B2R (S754_finite false mb eb))
           (SFdiv 53 1024 (S754_finite false ma ea) (S754_finite false mb eb)).
Proof.
  intros [Hma Hea] [Hmb Heb] Hlo Hhi.
  assert (Hda : Zdigits2 (Zpos ma) = 53) by (apply Zdigits2_unique; [lia | exact Hma]).
  assert (Hdb : Zdigits2 (Zpos mb) = 53) by (apply Zdigits2_unique; [lia | exact Hmb]).
  change (2 ^ 52) with 4503599627370496 in *.
  change (2 ^ 53) with 9007199254740992 in *.
  cbn [SFdiv xorb]. unfold SFdiv_core_binary.
  rewrite Hda, Hdb.
  replace (53 + ea - (53 + eb)) with (ea - eb) by lia.
  rewrite fexp_normal by lia.
  replace (Z.min (ea - eb - 53) (ea - eb)) with (ea - eb - 53) by lia.
  replace (ea - eb - (ea - eb - 53)) with 53 by lia.
  cbv iota.
  rewrite Z.shiftl_mul_pow2 by lia.
  change (2 ^ 53) with 9007199254740992.
  pose proof (Z.div_eucl_eq (Zpos ma * 9007199254740992) (Zpos mb) ltac:(lia)) as Heq.
  pose proof (Z.mod_pos_bound (Zpos ma * 9007199254740992) (Zpos mb) ltac:(lia)) as Hr.
  unfold Z.modulo in Hr.
  destruct (Z.div_eucl (Zpos ma * 9007199254740992) (Zpos mb)) as [q r].
  assert (Hq : 2 ^ 52 <= q < 2 ^ 54).
  { change (2 ^ 52) with 4503599627370496. change (2 ^ 54) with 18014398509481984. nia. }
  assert (Hd : 53 <= Zdigits2 q <= 54).
  { destruct (Z.ltb_spec q (2 ^ 53)).
    - rewrite (Zdigits2_unique _ 53); [lia | lia | ]. change (53 - 1) with 52. lia.
    - rewrite (Zdigits2_unique _ 54); [lia | lia | ]. change (54 - 1) with 53. lia. }
  apply binary_round_aux_faithful; [lia | lia | ].
  rewrite !B2R_pos, plus_IZR.
  assert (Hb : bpow ea = (IZR 9007199254740992 * bpow (ea - eb - 53) * bpow eb)%R).
  { change 9007199254740992 with (2 ^ 53). rewrite <- bpow_IZR, <- !bpow_add by lia.
    f_equal. lia. }
  rewrite Hb.
  pose proof (bpow_pos (ea - eb - 53)) as Hp1. pose proof (bpow_pos eb) as Hp2.
  assert (Hmbp : (0 < IZR (Zpos mb))%R) by (apply IZR_lt; lia).
  replace (IZR (Zpos ma) * (IZR 9007199254740992 * bpow (ea - eb - 53) * bpow eb)
           / (IZR (Zpos mb) * bpow eb))%R
    with ((IZR (Zpos ma * 9007199254740992) / IZR (Zpos mb)) * bpow (ea - eb - 53))%R
    by (rewrite mult_IZR; field; lra).
  rewrite Heq, plus_IZR, mult_IZR.
  replace ((IZR (Zpos mb) * IZR q + IZR r) / IZR (Zpos mb))%R
    with (IZR q + IZR r / IZR (Zpos mb))%R by (field; lra).
  assert (Hr0 : (0 <= IZR r / IZR (Zpos mb))%R).
  { apply Rmult_le_pos; [apply IZR_le; lia | left; apply Rinv_0_lt_compat; lra]. }
  assert (Hr1 : (IZR r / IZR (Zpos mb) <= 1)%R).
  { apply Rmult_le_reg_r with (IZR (Zpos mb)); [lra|].
    unfold Rdiv. rewrite Rmult_assoc, Rinv_l, Rmult_1_r, Rmult_1_l by lra.
    apply IZR_le. lia. }
  split; nra.
Qed.

(** * Conversions between [int] and [float64] *)

Lemma of_int_0 : Float64.of_int 0 = S754_zero false.
Proof. reflexivity. Qed.

Lemma of_int_pos (z : Z) :
  0 < z < 2 ^ 53 ->
  exists (m : positive) (e : Z),
    Float64.of_int z = S754_finite false m e /\ posNormal m e /\
    e = Zdigits2 z - 53 /\ -52 <= e <= 0 /\ Zpos m = z * 2 ^ (- e).
Proof.
  intros Hz. destruct z as [ | p | p ]; try lia.
  unfold Float64.of_int, binary_normalize.
  pose proof (digits2_pos_bounds p) as Hb.
  assert (Hd : 0 < Zpos (digits2_pos p) <= 53).
  { split; [lia|].
    destruct (Z.leb_spec (Zpos (digits2_pos p)) 53); [assumption | exfalso].
    assert (2 ^ 53 <= 2 ^ (Zpos (digits2_pos p) - 1)) by (apply Z.pow_le_mono_r; lia).
    lia. }
  destruct (binary_round_exact false p 0 ltac:(lia) ltac:(lia)) as (m & Hr & Hn & Hm).
  exists m, (Zpos (digits2_pos p) + 0 - 53).
  split; [exact Hr|]. split; [exact Hn|].
  cbn [Zdigits2]. split; [lia|]. split; [lia|].
  rewrite Hm. f_equal. f_equal. lia.
Qed.

Lemma B2R_of_int (z : Z) : 0 <= z < 2 ^ 53 -> B2R (Float64.of_int z) = IZR z.
Proof.
  intros Hz. destruct (Z.eqb_spec z 0) as [-> | Hne]; [reflexivity|].
  destruct (of_int_pos z ltac:(lia)) as (m & e & Hr & Hn & He & Hrange & Hm).
  rewrite Hr, B2R_pos, Hm, mult_IZR, <- bpow_IZR by lia.
  rewrite Rmult_assoc, bpow_opp. ring.
Qed.

Lemma to_int_floor (m : positive) (e : Z) :
  posNormal m e -> e <= 0 ->
  let r := Float64.to_int (S754_finite false m e) in
  r = Zpos m / 2 ^ (- e) /\ 0 <= r < 2 ^ 53 /\
  (IZR r <= B2R (S754_finite false m e) < IZR r + 1)%R.
Proof.
  intros [Hm He] He0.
  assert (Hp : 0 < 2 ^ (- e)) by (apply Z.pow_pos_nonneg; lia).
  assert (Ht : Float64.trunc (S754_finite false m e) = Some (Zpos m / 2 ^ (- e))).
  { unfold Float64.trunc, cond_Zopp.
    destruct (Z.leb_spec 0 e); [|reflexivity].
    assert (e = 0) by lia. subst e. cbn [Z.opp]. rewrite Z.pow_0_r, Z.div_1_r. f_equal. lia. }
  assert (Hq : 0 <= Zpos m / 2 ^ (- e) < 2 ^ 53).
  { split; [apply Z.div_pos; lia|].
    apply Z.div_lt_upper_bound; [lia|]. nia. }
  cbv zeta. unfold Float64.to_int. rewrite Ht.
  unfold GoInt.min_int, GoInt.max_int.
  assert (H63 : 2 ^ 53 < 2 ^ 63) by (cbn; lia).
  destruct (Z.leb_spec (- 2 ^ 63) (Zpos m / 2 ^ (- e))); [|lia].
  destruct (Z.leb_spec (Zpos m / 2 ^ (- e)) (2 ^ 63 - 1)); [|lia].
  cbn [andb].
  split; [reflexivity|]. split; [lia|].
  rewrite B2R_pos.
  pose proof (Z.mul_div_le (Zpos m) (2 ^ (- e)) Hp) as Hlo.
  pose proof (Z.mul_succ_div_gt (Zpos m) (2 ^ (- e)) Hp) as Hhi.
  set (r := Zpos m / 2 ^ (- e)) in *.
  assert (Hb : (IZR (2 ^ (- e)) * bpow e = 1)%R)
    by (rewrite <- bpow_IZR by lia; apply bpow_opp).
  pose proof (bpow_pos e) as Hbp.
  apply IZR_le in Hlo. apply IZR_lt in Hhi.
  rewrite mult_IZR in Hlo. rewrite mult_IZR, succ_IZR in Hhi.
  set (P := IZR (2 ^ (- e))) in *. set (b := bpow e) in *.
  set (M := IZR (Zpos m)) in *. set (R := IZR r) in *.
  split.
  - replace R with (P * R * b)%R by (rewrite (Rmult_comm P R), Rmult_assoc, Hb; ring).
    apply Rmult_le_compat_r; lra.
  - replace (R + 1)%R with (P * (R + 1) * b)%R
      by (rewrite (Rmult_comm P (R + 1)), Rmult_assoc, Hb; ring).
    apply Rmult_lt_compat_r; lra.
Qed.

(** The exponent of a neighbour of [x], from bounds on [x]. *)
Lemma faithful_exponent (x : R) (m : positive) (e : Z) (lo hi : Z) :
  posNormal m e ->
  ((IZR (Zpos m) - 1) * bpow e <= x <= (IZR (Zpos m) + 1) * bpow e)%R ->
  (bpow lo <= x)%R -> (x < bpow hi)%R ->
  lo - 53 <= e <= hi - 52.
Proof.
  intros [Hm _] [Hlo Hhi] Hxl Hxh.
  change (2 ^ 52) with 4503599627370496 in Hm.
  change (2 ^ 53) with 9007199254740992 in Hm.
  assert (Ha : (4503599627370496 <= IZR (Zpos m))%R) by (apply IZR_le; lia).
  assert (Hb : (IZR (Zpos m) + 1 <= 9007199254740992)%R).
  { rewrite <- plus_IZR. apply IZR_le. lia. }
  pose proof (bpow_pos e) as Hp.
  split.
  - destruct (Z.leb_spec (lo - 53) e) as [H | H]; [assumption | exfalso].
    pose proof (bpow_le (e + 54) lo ltac:(lia)) as Hle.
    rewrite bpow_add, (bpow_IZR 54) in Hle by lia.
    change (2 ^ 54) with 18014398509481984 in Hle.
    assert (Hlt : (x <= bpow e * 9007199254740992)%R).
    { apply Rle_trans with ((IZR (Zpos m) + 1) * bpow e)%R; [exact Hhi|].
      rewrite Rmult_comm. apply Rmult_le_compat_l; lra. }
    lra.
  - destruct (Z.leb_spec e (hi - 52)) as [H | H]; [assumption | exfalso].
    pose proof (bpow_le (hi + 1) (e + 52) ltac:(lia)) as Hle.
    rewrite !bpow_add, (bpow_IZR 52), (bpow_IZR 1) in Hle by lia.
    change (2 ^ 52) with 4503599627370496 in Hle. change (2 ^ 1) with 2 in Hle.
    pose proof (bpow_pos hi) as Hph.
    assert (Hge : (bpow e * 4503599627370496 - bpow e <= x)%R).
    { apply Rle_trans with ((IZR (Zpos m) - 1) * bpow e)%R; [|exact Hlo].
      rewrite Rmult_minus_distr_r, Rmult_1_l, (Rmult_comm (bpow e)).
      apply Rplus_le_compat_r. apply Rmult_le_compat_r; lra. }
    nra.
Qed.

(** [float64(z)] is a neighbour of [z], for a positive [int]. *)
Lemma of_int_faithful (z : Z) :
  0 < z < 2 ^ 63 ->
  exists (m : positive) (e : Z),
    Float64.of_int z = S754_finite false m e /\ posNormal m e /\
    -53 <= e <= 11 /\
    ((IZR (Zpos m) - 1) * bpow e <= IZR z <= (IZR (Zpos m) + 1) * bpow e)%R.
Proof.
  intros Hz.
  assert (Hf : faithful (IZR z) (Float64.of_int z)).
  { destruct (Z.ltb_spec z (2 ^ 53)) as [Hs | Hl].
    - destruct (of_int_pos z ltac:(lia)) as (m & e & Hr & Hn & _).
      pose proof (B2R_of_int z ltac:(lia)) as Hv. rewrite Hr, B2R_pos in Hv.
      exists m, e. split; [exact Hr|]. split; [exact Hn|].
      pose proof (bpow_pos e). rewrite <- Hv. lra.
    - destruct z as [ | p | p ]; try lia.
      unfold Float64.of_int, binary_normalize, binary_round.
      pose proof (Zdigits2_bounds (Zpos p) ltac:(lia)) as Hd.
      assert (Hd54 : 54 <= Zdigits2 (Zpos p) <= 63).
      { split.
        - destruct (Z.leb_spec 54 (Zdigits2 (Zpos p))); [assumption | exfalso].
          assert (2 ^ Zdigits2 (Zpos p) <= 2 ^ 53) by (apply Z.pow_le_mono_r; lia).
          lia.
        - destruct (Z.leb_spec (Zdigits2 (Zpos p)) 63); [assumption | exfalso].
          assert (2 ^ 63 <= 2 ^ (Zdigits2 (Zpos p) - 1))
            by (apply Z.pow_le_mono_r; lia).
          lia. }
      cbn [Zdigits2] in Hd54.
      assert (Hal : shl_align p 0 (fexp Float64.prec Float64.emax (Zpos (digits2_pos p) + 0))
                    = (p, 0)).
      { unfold shl_align, Float64.prec, Float64.emax. rewrite fexp_normal by lia.
        destruct (Zpos (digits2_pos p) + 0 - 53 - 0) eqn:E; try lia; reflexivity. }
      rewrite Hal.
      apply binary_round_aux_faithful.
      + assert (2 ^ 52 < 2 ^ 53) by (cbn; lia). lia.
      + cbn [Zdigits2]. lia.
      + rewrite plus_IZR. change (bpow 0) with 1%R. lra. }
  destruct Hf as (m & e & Hr & Hn & Hb).
  exists m, e. split; [exact Hr|]. split; [exact Hn|]. split; [|exact Hb].
  assert (Hlo : (bpow 0 <= IZR z)%R) by (change (bpow 0) with 1%R; apply IZR_le; lia).
  assert (Hhi : (IZR z < bpow 63)%R) by (rewrite bpow_IZR by lia; apply IZR_lt; lia).
  pose proof (faithful_exponent (IZR z) m e 0 63 Hn Hb Hlo Hhi). lia.
Qed.

(** * The remainder and the comparison *)

Lemma bpow_shift (a b : Z) : b <= a -> (IZR (2 ^ (a - b)) * bpow b = bpow a)%R.
Proof.
  intros H. rewrite <- bpow_IZR, <- bpow_add by lia. f_equal. lia.
Qed.

Lemma sub_floor (m : positive) (e : Z) :
  posNormal m e -> e <= 0 ->
  let f := S754_finite false m e in
  let r := Float64.to_int f in
  nonnegNormal (Float64.sub f (Float64.of_int r)) /\
  B2R (Float64.sub f (Float64.of_int r)) = (B2R f - IZR r)%R.
Proof.
  intros Hn He0 f r.
  destruct (to_int_floor m e Hn He0) as (Hr & Hrb & _).
  change (Float64.to_int (S754_finite false m e)) with r in Hr, Hrb.
  destruct (Z.eqb_spec r 0) as [Hr0 | Hr0].
  - rewrite Hr0, of_int_0. cbn [Float64.sub SFsub f].
    split; [right; exists m, e; auto | rewrite Rminus_0_r; reflexivity].
  - destruct (of_int_pos r ltac:(lia)) as (mr & er & Hof & Hnr & Her & Herb & Hmr).
    rewrite Hof.
    destruct Hn as [Hm He].
    assert (Hp : 0 < 2 ^ (- e)) by (apply Z.pow_pos_nonneg; lia).
    pose proof (Z.mul_div_le (Zpos m) (2 ^ (- e)) Hp) as Hlo.
    pose proof (Z.mul_succ_div_gt (Zpos m) (2 ^ (- e)) Hp) as Hhi.
    rewrite <- Hr in Hlo, Hhi.
    assert (Hle : er <= e).
    { pose proof (Zdigits2_bounds r ltac:(lia)) as [Hdlo _].
      assert (Hpw : 2 ^ (Zdigits2 r - 1 - e) < 2 ^ 53).
      { replace (Zdigits2 r - 1 - e) with ((Zdigits2 r - 1) + (- e)) by lia.
        rewrite Z.pow_add_r by lia. nia. }
      apply Z.pow_lt_mono_r_iff in Hpw; lia. }
    unfold f, Float64.sub, Float64.prec, Float64.emax. cbn [SFsub cond_Zopp].
    replace (Z.min e er) with er by lia.
    destruct (shl_align_spec m e er Hle) as [Ha _].
    destruct (shl_align_spec mr er er ltac:(lia)) as [Hb _].
    rewrite Ha, Hb, Z.sub_diag, Z.pow_0_r, Z.mul_1_r, Hmr.
    set (D := Zpos m * 2 ^ (e - er) - r * 2 ^ (- er)).
    assert (Hsplit : 2 ^ (- er) = 2 ^ (- e) * 2 ^ (e - er))
      by (rewrite <- Z.pow_add_r by lia; f_equal; lia).
    assert (Hq : 0 < 2 ^ (e - er)) by (apply Z.pow_pos_nonneg; lia).
    assert (HD : 0 <= D < 2 ^ (- er)) by (unfold D; rewrite Hsplit; nia).
    assert (HDR : (IZR D * bpow er = B2R (S754_finite false m e) - IZR r)%R).
    { unfold D. rewrite minus_IZR, !mult_IZR, B2R_pos.
      rewrite Rmult_minus_distr_r, !Rmult_assoc, bpow_shift by lia.
      rewrite <- bpow_IZR by lia. rewrite bpow_opp. ring. }
    rewrite <- HDR.
    destruct D as [ | p | p ] eqn:ED; [ | | lia].
    + cbn [binary_normalize B2R]. split; [left; reflexivity | ring].
    + cbn [binary_normalize].
      pose proof (digits2_pos_bounds p) as [Hplo Hphi].
      assert (Hdp : 0 < Zpos (digits2_pos p) <= - er).
      { split; [lia|].
        destruct (Z.leb_spec (Zpos (digits2_pos p)) (- er)); [assumption | exfalso].
        assert (2 ^ (- er) <= 2 ^ (Zpos (digits2_pos p) - 1))
          by (apply Z.pow_le_mono_r; lia).
        lia. }
      destruct (binary_round_exact false p er ltac:(lia) ltac:(lia))
        as (mD & HrD & HnD & HmD).
      rewrite HrD. split; [right; eauto|].
      rewrite B2R_pos, HmD, mult_IZR, Rmult_assoc.
      f_equal.
      replace (Zpos (digits2_pos p) + er - 53) with (er - (53 - Zpos (digits2_pos p))) by lia.
      set (k := 53 - Zpos (digits2_pos p)).
      replace (bpow er) with (IZR (2 ^ (er - (er - k))) * bpow (er - k))%R
        by (apply bpow_shift; lia).
      f_equal. f_equal. f_equal. lia.
Qed.

Lemma posNormal_lt_exp (m1 m2 : positive) (e1 e2 : Z) :
  posNormal m1 e1 -> posNormal m2 e2 -> e1 < e2 ->
  (IZR (Zpos m1) * bpow e1 < IZR (Zpos m2) * bpow e2)%R.
Proof.
  intros [H1 _] [H2 _] He.
  pose proof (bpow_le (e1 + 1) e2 ltac:(lia)) as Hb.
  rewrite bpow_add in Hb.
  assert (Hb1 : bpow 1 = 2%R) by (unfold bpow, powerRZ; rewrite Pos2Nat.inj_1; simpl; lra).
  rewrite Hb1 in Hb.
  pose proof (bpow_pos e1) as Hp.
  change (2 ^ 52) with 4503599627370496 in *.
  change (2 ^ 53) with 9007199254740992 in *.
  assert (Ha : (IZR (Zpos m1) < 9007199254740992)%R) by (apply IZR_lt; lia).
  assert (Hc : (4503599627370496 <= IZR (Zpos m2))%R) by (apply IZR_le; lia).
  apply Rlt_le_trans with (9007199254740992 * bpow e1)%R.
  - apply Rmult_lt_compat_r; assumption.
  - apply Rle_trans with (4503599627370496 * bpow e2)%R; [lra|].
    apply Rmult_le_compat_r; [left; apply bpow_pos | assumption].
Qed.

Lemma B2R_nonneg (f : spec_float) : nonnegNormal f -> (0 <= B2R f)%R.
Proof.
  intros [-> | (m & e & -> & _)]; [cbn; lra|].
  rewrite B2R_pos. apply Rmult_le_pos; [apply IZR_le; lia | left; apply bpow_pos].
Qed.

Lemma ltb_nonnegNormal (f g : spec_float) :
  nonnegNormal f -> nonnegNormal g ->
  (SFltb f g = true <-> (B2R f < B2R g)%R).
Proof.
  intros [-> | (m1 & e1 & -> & H1)] [-> | (m2 & e2 & -> & H2)].
  - cbn. split; [discriminate | lra].
  - cbn [SFltb SFcompare]. split; [intros _ | reflexivity].
    rewrite B2R_pos. cbn [B2R].
    apply Rmult_lt_0_compat; [apply IZR_lt; lia | apply bpow_pos].
  - cbn [SFltb SFcompare]. split; [discriminate|].
    intros H. exfalso.
    pose proof (B2R_nonneg (S754_finite false m1 e1) ltac:(right; eauto)).
    cbn [B2R] in H. cbn [B2R cond_Zopp] in H0. cbn [cond_Zopp] in H. lra.
  - rewrite !B2R_pos. cbn [SFltb SFcompare].
    destruct (Z.compare_spec e1 e2) as [He | He | He].
    + subst e2. rewrite Pos.compare_cont_spec. cbn [Pos.switch_Eq].
      pose proof (bpow_pos e1) as Hp.
      destruct (Pos.compare_spec m1 m2) as [Hm | Hm | Hm].
      * subst. split; [discriminate | lra].
      * split; [intros _ | reflexivity].
        apply Rmult_lt_compat_r; [assumption | apply IZR_lt; lia].
      * split; [discriminate|]. intros H. exfalso.
        assert (IZR (Zpos m2) < IZR (Zpos m1))%R by (apply IZR_lt; lia).
        nra.
    + split; [intros _ | reflexivity]. now apply posNormal_lt_exp.
    + split; [discriminate|]. intros H. exfalso.
      pose proof (posNormal_lt_exp m2 m1 e2 e1 H2 H1 He). lra.
Qed.

Lemma float64Less_nonnegNormal (f g : spec_float) :
  nonnegNormal f -> nonnegNormal g ->
  (float64Less f g = true <-> (B2R f < B2R g)%R).
Proof.
  intros Hf Hg. rewrite <- (ltb_nonnegNormal f g Hf Hg).
  unfold float64Less, Float64.ltb.
  assert (Float64.isNaN f = false) as ->.
  { destruct Hf as [-> | (m & e & -> & _)]; reflexivity. }
  cbn [andb]. rewrite orb_false_r. reflexivity.
Qed.

(** * One round of the first loop, in the reals *)

Lemma posNormal_exp_le_0 (m : positive) (e : Z) (x : R) :
  posNormal m e -> ((IZR (Zpos m) - 1) * bpow e <= x)%R -> (x <= 1000)%R ->
  e <= 0.
Proof.
  intros [Hm _] Hx Hx1.
  destruct (Z.leb_spec e 0) as [H | H]; [assumption | exfalso].
  pose proof (bpow_le 0 e ltac:(lia)) as Hb. change (bpow 0) with 1%R in Hb.
  change (2 ^ 52) with 4503599627370496 in Hm.
  assert (Hc : (4503599627370496 <= IZR (Zpos m))%R) by (apply IZR_le; lia).
  nra.
Qed.

Lemma percent_zero (total : Z) :
  0 < total < 2 ^ 63 -> percent total 0 = (0, S754_zero false).
Proof.
  intros HT.
  destruct (of_int_faithful total HT) as (mb & eb & Hb & _).
  unfold percent. rewrite of_int_0, Hb. reflexivity.
Qed.

Lemma inverse_bound (b B c : R) :
  (0 < b)%R -> (0 < B)%R -> (b <= c * B)%R -> (/ B <= c * / b)%R.
Proof.
  intros Hb HB H.
  assert (Hib : (0 < / b)%R) by now apply Rinv_0_lt_compat.
  assert (HiB : (0 < / B)%R) by now apply Rinv_0_lt_compat.
  replace (/ B)%R with (b * (/ b * / B))%R by (field; lra).
  replace (c * / b)%R with (c * B * (/ b * / B))%R by (field; lra).
  apply Rmult_le_compat_r; [|exact H].
  apply Rmult_le_pos; lra.
Qed.

(** The quotient of two neighbours against the quotient of the exact
    values, each within the relative error [u]. *)
Lemma quotient_bounds (A B a b u : R) :
  (0 < u < 1)%R -> (0 < a)%R -> (0 < b)%R -> (0 < A)%R -> (0 < B)%R ->
  (A * (1 - u) <= a <= A * (1 + u))%R ->
  (B * (1 - u) <= b <= B * (1 + u))%R ->
  (A / B * (1 - u) <= a / b * (1 + u))%R /\
  (a / b * (1 - u) <= A / B * (1 + u))%R.
Proof.
  intros Hu Ha Hb HA HB [Ha1 Ha2] [Hb1 Hb2].
  assert (Hib : (0 < / b)%R) by now apply Rinv_0_lt_compat.
  assert (HiB : (0 < / B)%R) by now apply Rinv_0_lt_compat.
  pose proof (inverse_bound b B (1 + u) Hb HB ltac:(lra)) as H1.
  pose proof (inverse_bound B b (/ (1 - u))%R HB Hb) as H2.
  assert (Hiu : (0 < / (1 - u))%R) by (apply Rinv_0_lt_compat; lra).
  assert (H2' : (/ b * (1 - u) <= / B)%R).
  { assert (Hc : (B <= / (1 - u) * b)%R).
    { replace B with (/ (1 - u) * (B * (1 - u)))%R by (field; lra).
      apply Rmult_le_compat_l; lra. }
    specialize (H2 Hc).
    replace (/ B)%R with (/ (1 - u) * / B * (1 - u))%R by (field; lra).
    apply Rmult_le_compat_r; lra. }
  unfold Rdiv. split.
  - apply Rle_trans with (a * / B)%R.
    + replace (A * / B * (1 - u))%R with (A * (1 - u) * / B)%R by ring.
      apply Rmult_le_compat_r; lra.
    + replace (a * / b * (1 + u))%R with (a * ((1 + u) * / b))%R by ring.
      apply Rmult_le_compat_l; lra.
  - apply Rle_trans with (a * / B)%R.
    + replace (a * / b * (1 - u))%R with (a * (/ b * (1 - u)))%R by ring.
      apply Rmult_le_compat_l; lra.
    + replace (A * / B * (1 + u))%R with (A * (1 + u) * / B)%R by ring.
      apply Rmult_le_compat_r; lra.
Qed.

Lemma percent_real (total w : Z) :
  0 < w <= total -> total < 2 ^ 63 ->
  exists v : R,
    nonnegNormal (snd (percent total w)) /\
    0 <= fst (percent total w) /\
    (IZR (fst (percent total w)) <= v < IZR (fst (percent total w)) + 1)%R /\
    B2R (snd (percent total w)) = (v - IZR (fst (percent total w)))%R /\
    (- delta <= v - 100 * (IZR w / IZR total) <= delta)%R.
Proof.
  intros Hw HT.
  destruct (of_int_faithful w ltac:(lia)) as (ma & ea & Ha & Hna & Hea & Hba).
  destruct (of_int_faithful total ltac:(lia)) as (mb & eb & Hb & Hnb & Heb & Hbb).
  assert (Hwp : (0 < IZR w)%R) by (apply IZR_lt; lia).
  assert (HTp : (0 < IZR total)%R) by (apply IZR_lt; lia).
  assert (Hx : (0 < IZR w / IZR total <= 1)%R).
  { assert (IZR w <= IZR total)%R by (apply IZR_le; lia).
    split.
    - apply Rdiv_lt_0_compat; lra.
    - apply Rmult_le_reg_r with (IZR total); [lra|].
      unfold Rdiv. rewrite Rmult_assoc, Rinv_l by lra. lra. }
  set (x := (IZR w / IZR total)%R) in *.
  set (A := (IZR (Zpos ma) * bpow ea)%R) in *.
  set (B := (IZR (Zpos mb) * bpow eb)%R) in *.
  pose proof (bpow_pos ea) as Hpa. pose proof (bpow_pos eb) as Hpb.
  assert (HuA : (4503599627370496 * bpow ea <= A)%R).
  { unfold A. apply Rmult_le_compat_r; [lra|]. apply IZR_le. apply Hna. }
  assert (HuB : (4503599627370496 * bpow eb <= B)%R).
  { unfold B. apply Rmult_le_compat_r; [lra|]. apply IZR_le. apply Hnb. }
  assert (Hba' : (A - bpow ea <= IZR w <= A + bpow ea)%R) by (unfold A; lra).
  assert (Hbb' : (B - bpow eb <= IZR total <= B + bpow eb)%R) by (unfold B; lra).
  destruct (quotient_bounds A B (IZR w) (IZR total) (/ 4503599627370496))
    as [HX1 HX2]; try lra.
  fold x in HX1, HX2.
  (* the quotient *)
  pose proof (faithful_div ma mb ea eb Hna Hnb ltac:(lia) ltac:(lia)) as Hdiv.
  rewrite <- Ha, <- Hb in Hdiv. rewrite Ha, Hb, !B2R_pos in Hdiv at 1.
  fold A B in Hdiv.
  destruct Hdiv as (m1 & e1 & Hq & Hn1 & Hq1).
  assert (He1 : e1 <= 0)
    by (apply (posNormal_exp_le_0 m1 e1 (A / B)); [assumption | apply Hq1 | lra]).
  (* the constant *)
  destruct (of_int_pos 100 ltac:(cbn; lia)) as (mh & eh & Hh & Hnh & Heh & _ & _).
  change (Zdigits2 100 - 53) with (-46) in Heh.
  pose proof (B2R_of_int 100 ltac:(cbn; lia)) as Hvh.
  (* the product *)
  destruct Hn1 as [Hm1 He1r].
  pose proof (faithful_mul m1 mh e1 eh (conj Hm1 He1r) Hnh ltac:(lia) ltac:(lia)) as Hmul.
  rewrite <- Hh, Hvh, B2R_pos in Hmul.
  destruct Hmul as (m2 & e2 & Hp & Hn2 & Hp2).
  set (V1 := (IZR (Zpos m1) * bpow e1)%R) in *.
  set (V2 := (IZR (Zpos m2) * bpow e2)%R) in *.
  pose proof (bpow_pos e1) as Hb1. pose proof (bpow_pos e2) as Hb2.
  assert (Hu1 : (4503599627370496 * bpow e1 <= V1)%R).
  { unfold V1. apply Rmult_le_compat_r; [lra|]. apply IZR_le. apply Hm1. }
  assert (Hu2 : (4503599627370496 * bpow e2 <= V2)%R).
  { unfold V2. apply Rmult_le_compat_r; [lra|]. apply IZR_le. apply Hn2. }
  assert (Hq1' : (V1 - bpow e1 <= A / B <= V1 + bpow e1)%R) by (unfold V1; lra).
  assert (Hp2' : (V2 - bpow e2 <= V1 * 100 <= V2 + bpow e2)%R) by (unfold V2; lra).
  assert (He2 : e2 <= 0).
  { apply (posNormal_exp_le_0 m2 e2 (V1 * 100)); [assumption | apply Hp2 | lra]. }
  (* the integer part and the remainder *)
  destruct (to_int_floor m2 e2 Hn2 He2) as (_ & Hr & Hfl).
  destruct (sub_floor m2 e2 Hn2 He2) as (Hgood & Hrem).
  assert (Hperc : percent total w =
                  (Float64.to_int (S754_finite false m2 e2),
                   Float64.sub (S754_finite false m2 e2)
                     (Float64.of_int (Float64.to_int (S754_finite false m2 e2))))).
  { unfold percent, Float64.div, Float64.mul, Float64.hundred, Float64.prec, Float64.emax.
    rewrite Hq, Hp. reflexivity. }
  rewrite Hperc. cbn [fst snd].
  exists V2.
  split; [exact Hgood|]. split; [lia|].
  split; [rewrite B2R_pos in Hfl; exact Hfl|].
  split; [rewrite Hrem, B2R_pos; reflexivity|].
  unfold delta. lra.
Qed.

(** * One round of the first loop, against the exact percentage *)

Lemma percent_cases (total w : Z) :
  0 <= w <= total -> 0 < total <= 2 ^ 40 ->
  nonnegNormal (snd (percent total w)) /\
  0 <= fst (percent total w) /\
  ((fst (percent total w) = exactFloor total w /\
    (IZR (exactRemainder total w) / IZR total - delta
       <= B2R (snd (percent total w))
       <= IZR (exactRemainder total w) / IZR total + delta)%R) \/
   (exactRemainder total w = 0 /\
    fst (percent total w) = exactFloor total w - 1 /\
    (1 - delta <= B2R (snd (percent total w)))%R)).
Proof.
  intros Hw HT.
  assert (HT53 : total < 2 ^ 63).
  { assert (2 ^ 40 < 2 ^ 63) by (cbn; lia). lia. }
  unfold exactFloor, exactRemainder.
  destruct (Z.eqb_spec w 0) as [-> | Hw0].
  - rewrite percent_zero by lia. cbn [fst snd B2R].
    split; [left; reflexivity|]. split; [lia|]. left.
    rewrite Z.mul_0_l, Z.div_0_l, Z.mod_0_l by lia.
    split; [reflexivity|]. unfold delta, Rdiv. rewrite Rmult_0_l. lra.
  - destruct (percent_real total w ltac:(lia) HT53)
      as (v & Hgood & Hr0 & Hfl & Hrem & Hv).
    split; [exact Hgood|]. split; [exact Hr0|].
    pose proof (Z.div_mod (w * 100) total ltac:(lia)) as Hdm.
    pose proof (Z.mod_pos_bound (w * 100) total ltac:(lia)) as Hrho.
    set (f := w * 100 / total) in *. set (rho := (w * 100) mod total) in *.
    set (r := fst (percent total w)) in *.
    assert (Ht : (1 <= IZR total <= 1099511627776)%R).
    { split; [apply IZR_le; lia|]. apply IZR_le. change (2 ^ 40) with 1099511627776 in HT. lia. }
    assert (Hit : (/ 1099511627776 <= / IZR total)%R).
    { apply Rinv_le_contravar; lra. }
    assert (Hitp : (0 < / IZR total)%R) by (apply Rinv_0_lt_compat; lra).
    assert (Hx : (100 * (IZR w / IZR total) = IZR f + IZR rho / IZR total)%R).
    { apply (f_equal IZR) in Hdm. rewrite plus_IZR, !mult_IZR in Hdm.
      unfold Rdiv. field_simplify_eq; [|lra]. lra. }
    rewrite Hx in Hv.
    assert (Hrho1 : (0 <= IZR rho / IZR total <= 1 - / IZR total)%R).
    { unfold Rdiv. split.
      - apply Rmult_le_pos; [apply IZR_le; lia | lra].
      - assert (IZR rho <= IZR total - 1)%R.
        { rewrite <- minus_IZR. apply IZR_le. lia. }
        apply Rle_trans with ((IZR total - 1) * / IZR total)%R.
        + apply Rmult_le_compat_r; lra.
        + rewrite Rmult_minus_distr_r, Rinv_r by lra. lra. }
    unfold delta in *.
    assert (Hle : r <= f).
    { assert (IZR r < IZR f + 1)%R by lra.
      rewrite <- plus_IZR in H. apply lt_IZR in H. lia. }
    assert (Hge : f - 1 <= r).
    { assert (IZR f - 1 < IZR r + 1)%R by lra.
      rewrite <- minus_IZR, <- plus_IZR in H. apply lt_IZR in H. lia. }
    destruct (Z.eqb_spec r f) as [E | E].
    + left. split; [exact E|]. rewrite Hrem, E. lra.
    + right. assert (Er : r = f - 1) by lia.
      assert (Hsmall : (IZR rho / IZR total < / 8796093022208)%R).
      { rewrite Er, minus_IZR in Hfl. lra. }
      assert (Hrho0 : rho = 0).
      { destruct (Z.eqb_spec rho 0) as [|Hne]; [assumption | exfalso].
        assert (1 <= IZR rho)%R by (apply IZR_le; lia).
        assert (/ IZR total <= IZR rho / IZR total)%R.
        { unfold Rdiv. rewrite <- (Rmult_1_l (/ IZR total)) at 1.
          apply Rmult_le_compat_r; lra. }
        lra. }
      split; [exact Hrho0|]. split; [exact Er|].
      rewrite Hrem, Er, minus_IZR. rewrite Hrho0 in Hv.
      unfold Rdiv in Hv. rewrite Rmult_0_l in Hv. lra.
Qed.

Section Percent.

Variables total w : Z.
Hypothesis total_range : 0 < total <= 2 ^ 40.
Hypothesis w_range : 0 <= w <= total.

Lemma under_true :
  under total w = true ->
  exactRemainder total w = 0 /\
  fst (percent total w) = exactFloor total w - 1 /\
  (1 - delta <= B2R (snd (percent total w)))%R.
Proof.
  unfold under. intros H. apply Z.eqb_eq in H.
  destruct (percent_cases total w w_range total_range) as (_ & _ & [[E _] | C]);
    [lia | exact C].
Qed.

Lemma under_false :
  under total w = false ->
  fst (percent total w) = exactFloor total w /\
  (IZR (exactRemainder total w) / IZR total - delta
     <= B2R (snd (percent total w))
     <= IZR (exactRemainder total w) / IZR total + delta)%R.
Proof.
  unfold under. intros H. apply Z.eqb_neq in H.
  destruct (percent_cases total w w_range total_range) as (_ & _ & [C | (_ & E & _)]);
    [exact C | lia].
Qed.

Lemma percent_bounds :
  0 <= fst (percent total w) /\
  total * fst (percent total w) <= w * 100 /\
  w * 100 <= total * (fst (percent total w) + 1) /\
  fst (percent total w) =
    exactFloor total w - (if under total w then 1 else 0).
Proof.
  pose proof (Z.div_mod (w * 100) total ltac:(lia)) as Hdm.
  pose proof (Z.mod_pos_bound (w * 100) total ltac:(lia)) as Hrho.
  destruct (percent_cases total w w_range total_range) as (_ & Hr & _).
  split; [exact Hr|].
  destruct (under total w) eqn:U.
  - destruct (under_true U) as (Hrem & E & _).
    unfold exactFloor, exactRemainder in *. rewrite E. nia.
  - destruct (under_false U) as (E & _).
    unfold exactFloor, exactRemainder in *. rewrite E. nia.
Qed.

Lemma remainder_normal : nonnegNormal (snd (percent total w)).
Proof. apply (percent_cases total w w_range total_range). Qed.

Lemma inv_total : (8 * delta <= / IZR total)%R.
Proof.
  unfold delta.
  assert (Ht : (1 <= IZR total <= 1099511627776)%R).
  { split; [apply IZR_le; lia|]. apply IZR_le.
    change (2 ^ 40) with 1099511627776 in total_range. lia. }
  assert (/ 1099511627776 <= / IZR total)%R by (apply Rinv_le_contravar; lra).
  lra.
Qed.

Lemma fraction_range :
  (0 <= IZR (exactRemainder total w) / IZR total <= 1 - / IZR total)%R.
Proof.
  pose proof (Z.mod_pos_bound (w * 100) total ltac:(lia)) as Hrho.
  fold (exactRemainder total w) in Hrho.
  assert (Ht : (1 <= IZR total)%R) by (apply IZR_le; lia).
  assert (Hitp : (0 < / IZR total)%R) by (apply Rinv_0_lt_compat; lra).
  unfold Rdiv. split.
  - apply Rmult_le_pos; [apply IZR_le; lia | lra].
  - assert (IZR (exactRemainder total w) <= IZR total - 1)%R.
    { rewrite <- minus_IZR. apply IZR_le. lia. }
    apply Rle_trans with ((IZR total - 1) * / IZR total)%R.
    + apply Rmult_le_compat_r; lra.
    + rewrite Rmult_minus_distr_r, Rinv_r by lra. lra.
Qed.

End Percent.

Section PercentOrder.

Variables total w w' : Z.
Hypothesis total_range : 0 < total <= 2 ^ 40.
Hypothesis w_range : 0 <= w <= total.
Hypothesis w'_range : 0 <= w' <= total.

(** A percentage truncated one too low leaves a remainder above every
    remainder of a percentage truncated to its floor. *)
Lemma under_first :
  under total w = true -> under total w' = false ->
  float64Less (snd (percent total w')) (snd (percent total w)) = true.
Proof.
  intros U U'.
  apply float64Less_nonnegNormal; try now apply remainder_normal.
  destruct (under_true total w total_range w_range U) as (_ & _ & H).
  destruct (under_false total w' total_range w'_range U') as (_ & H').
  pose proof (fraction_range total w' total_range) as Hf.
  pose proof (inv_total total total_range) as Hi.
  unfold delta in *. lra.
Qed.

(** Among percentages truncated to their floor the binary64 remainders
    are ordered as the exact ones. *)
Lemma remainder_order :
  under total w = false -> under total w' = false ->
  exactRemainder total w < exactRemainder total w' ->
  float64Less (snd (percent total w)) (snd (percent total w')) = true.
Proof.
  intros U U' Hlt.
  apply float64Less_nonnegNormal; try now apply remainder_normal.
  destruct (under_false total w total_range w_range U) as (_ & H).
  destruct (under_false total w' total_range w'_range U') as (_ & H').
  pose proof (inv_total total total_range) as Hi.
  assert (Ht : (1 <= IZR total)%R) by (apply IZR_le; lia).
  assert (Hstep : (IZR (exactRemainder total w) / IZR total + / IZR total
                   <= IZR (exactRemainder total w') / IZR total)%R).
  { unfold Rdiv. rewrite <- (Rmult_1_l (/ IZR total)) at 2.
    rewrite <- Rmult_plus_distr_r.
    apply Rmult_le_compat_r; [left; apply Rinv_0_lt_compat; lra|].
    rewrite <- plus_IZR. apply IZR_le. lia. }
  unfold delta in *. lra.
Qed.

End PercentOrder.

(** * Lists, sums and the second loop *)

(** ** Go's [int] *)

Lemma wrap_id (z : Z) : GoInt.in_range z -> GoInt.wrap z = z.
Proof.
  unfold GoInt.in_range, GoInt.min_int, GoInt.max_int, GoInt.wrap.
  intros H. rewrite Z.mod_small; lia.
Qed.

Lemma wrap_in_range (z : Z) : GoInt.in_range (GoInt.wrap z).
Proof.
  unfold GoInt.in_range, GoInt.min_int, GoInt.max_int, GoInt.wrap.
  pose proof (Z.mod_pos_bound (z + 2 ^ 63) (2 ^ 64) ltac:(lia)). lia.
Qed.

Lemma zsum_cons (a : Z) (l : list Z) : zsum (a :: l) = a + zsum l.
Proof. reflexivity. Qed.

Lemma zsum_nonneg (l : list Z) : Forall (fun w => 0 <= w) l -> 0 <= zsum l.
Proof.
  induction 1 as [ | w l Hw Hl IH]; [cbv; discriminate|].
  rewrite zsum_cons. lia.
Qed.

Lemma zsum_bound (weights : list Z) :
  Forall (fun w => 0 <= w) weights ->
  Forall (fun w => 0 <= w <= zsum weights) weights.
Proof.
  induction 1 as [ | w l Hw Hl IH]; [constructor|].
  rewrite zsum_cons. pose proof (zsum_nonneg l Hl).
  constructor; [lia|].
  eapply Forall_impl; [|exact IH]. cbv beta. intros a Ha. lia.
Qed.

Lemma intSum_acc (l : list Z) (acc : Z) :
  Forall (fun w => 0 <= w) l -> 0 <= acc -> acc + zsum l <= GoInt.max_int ->
  fold_left GoInt.add l acc = acc + zsum l.
Proof.
  revert acc. induction l as [ | w l IH]; intros acc Hl Hacc Hmax.
  - cbn [fold_left]. change (zsum []) with 0. lia.
  - inversion Hl as [ | ? ? Hw Hl']; subst.
    pose proof (zsum_nonneg l Hl') as Hz.
    rewrite zsum_cons in Hmax |- *. cbn [fold_left].
    unfold GoInt.add at 2. rewrite wrap_id.
    + rewrite IH; [lia | assumption | lia | lia].
    + unfold GoInt.in_range, GoInt.min_int in *. unfold GoInt.max_int in *. lia.
Qed.

Lemma intSum_zsum (l : list Z) :
  Forall (fun w => 0 <= w) l -> zsum l <= GoInt.max_int -> intSum l = zsum l.
Proof.
  intros Hl Hmax. unfold intSum. rewrite intSum_acc; [lia | assumption | lia | lia].
Qed.

Lemma zsum_app (l1 l2 : list Z) : zsum (l1 ++ l2) = zsum l1 + zsum l2.
Proof.
  induction l1 as [ | a l1 IH]; [reflexivity|].
  cbn [app]. rewrite !zsum_cons. lia.
Qed.

(** ** [argsort] *)

Lemma map_snd_combine {A B : Type} (l1 : list A) (l2 : list B) :
  length l1 = length l2 -> map snd (combine l1 l2) = l2.
Proof.
  revert l2. induction l1 as [ | a l1 IH]; intros [ | b l2] H; cbn in *; try congruence.
  f_equal. apply IH. lia.
Qed.

Lemma In_combine_seq {A : Type} (d : A) (l : list A) (a : nat) (x : A) (i : nat) :
  In (x, i) (combine l (seq a (length l))) ->
  (a <= i < a + length l)%nat /\ x = nth (i - a) l d.
Proof.
  revert a. induction l as [ | y l IH]; intros a H; cbn in H; [contradiction|].
  destruct H as [H | H].
  - inversion H; subst. cbn [length]. split; [lia|].
    now rewrite Nat.sub_diag.
  - apply IH in H. destruct H as [Hi Hx]. cbn [length]. split; [lia|].
    replace (i - a)%nat with (S (i - S a)) by lia. exact Hx.
Qed.

Section Argsort.

Variable sortSort : argSlice -> argSlice.
Hypothesis contract : sortContract sortSort.

Lemma argsort_perm (n : list Float64.t) :
  Permutation (argsort sortSort n) (seq 0 (length n)).
Proof.
  unfold argsort.
  rewrite <- (map_snd_combine n (seq 0 (length n))) at 2
    by (now rewrite length_seq).
  apply Permutation_map. apply contract.
Qed.

Lemma argsort_NoDup (n : list Float64.t) : NoDup (argsort sortSort n).
Proof.
  apply (Permutation_NoDup (Permutation_sym (argsort_perm n))).
  apply seq_NoDup.
Qed.

Lemma argsort_bound (n : list Float64.t) :
  Forall (fun i => (i < length n)%nat) (argsort sortSort n).
Proof.
  apply Forall_forall. intros i Hi.
  apply (Permutation_in _ (argsort_perm n)) in Hi.
  apply in_seq in Hi. lia.
Qed.

(** The indices come out with their floats in descending order. *)
Lemma argsort_sorted (n : list Float64.t) :
  sortedBy
    (fun i j => float64Less (nth j n (S754_zero false)) (nth i n (S754_zero false)))
    (argsort sortSort n).
Proof.
  unfold argsort.
  destruct (contract (combine n (seq 0 (length n)))) as [Hperm Hsorted].
  assert (Hin : forall p, In p (sortSort (combine n (seq 0 (length n)))) ->
                     fst p = nth (snd p) n (S754_zero false)).
  { intros [x i] Hp. apply (Permutation_in _ Hperm) in Hp.
    apply (In_combine_seq (S754_zero false)) in Hp. cbn [fst snd].
    destruct Hp as [_ ->]. now rewrite Nat.sub_0_r. }
  clear Hperm.
  induction Hsorted as [ | a l Hall Hs IH]; cbn [map]; constructor.
  - apply Forall_forall. intros j Hj.
    apply in_map_iff in Hj. destruct Hj as (b & <- & Hb).
    rewrite Forall_forall in Hall. specialize (Hall b Hb).
    unfold reverseLess in Hall.
    rewrite <- (Hin a (or_introl eq_refl)), <- (Hin b (or_intror Hb)).
    exact Hall.
  - apply IH. intros p Hp. apply Hin. now right.
Qed.

End Argsort.

Lemma sortedBy_app {A : Type} (less : A -> A -> bool) (l1 l2 : list A) :
  sortedBy less (l1 ++ l2) ->
  forall a b, In a l1 -> In b l2 -> less b a = false.
Proof.
  induction l1 as [ | x l1 IH]; intros Hs a b Ha Hb; [contradiction|].
  cbn [app] in Hs. inversion Hs as [ | ? ? Hall Hs']; subst.
  destruct Ha as [-> | Ha].
  - rewrite Forall_forall in Hall. apply Hall. apply in_or_app. now right.
  - now apply IH.
Qed.

(** ** The second loop *)

Lemma increment_spec (idx : nat) (results : list Z) :
  (idx < length results)%nat ->
  exists out,
    increment idx results = Some out /\ length out = length results /\
    forall i, nth i out 0 =
              if (i =? idx)%nat then GoInt.add (nth i results 0) 1
              else nth i results 0.
Proof.
  revert idx. induction results as [ | r rest IH]; intros idx H; cbn in H; [lia|].
  destruct idx as [ | idx]; cbn [increment].
  - eexists. split; [reflexivity|]. split; [reflexivity|].
    intros [ | i]; reflexivity.
  - destruct (IH idx ltac:(lia)) as (out & -> & Hlen & Hnth).
    eexists. split; [reflexivity|]. split; [cbn; lia|].
    intros [ | i]; [reflexivity|]. cbn [nth]. rewrite Hnth. reflexivity.
Qed.

Lemma taken_false (i : nat) (l : list nat) : ~ In i l -> taken i l = false.
Proof.
  intros H. unfold taken. destruct (existsb (Nat.eqb i) l) eqn:E; [|reflexivity].
  apply existsb_exists in E. destruct E as (j & Hj & Hij).
  apply Nat.eqb_eq in Hij. subst. contradiction.
Qed.

Lemma taken_true (i : nat) (l : list nat) : taken i l = true <-> In i l.
Proof.
  unfold taken. rewrite existsb_exists. split.
  - intros (j & Hj & Hij). apply Nat.eqb_eq in Hij. now subst.
  - intros H. exists i. split; [assumption | apply Nat.eqb_refl].
Qed.

Lemma firstn_incl {A : Type} (n : nat) (l : list A) (x : A) :
  In x (firstn n l) -> In x l.
Proof.
  intros H. rewrite <- (firstn_skipn n l). apply in_or_app. now left.
Qed.

Lemma distribute_spec (order : list nat) (remaining : Z) (results : list Z) :
  GoInt.in_range remaining ->
  NoDup order -> Forall (fun i => (i < length results)%nat) order ->
  exists out,
    distribute order remaining results = Some out /\
    length out = length results /\
    forall i, nth i out 0 =
              if taken i (firstn (Z.to_nat remaining) order)
              then GoInt.add (nth i results 0) 1
              else nth i results 0.
Proof.
  revert remaining results.
  induction order as [ | idx rest IH]; intros remaining results Hr Hnd Hb; cbn [distribute].
  - exists results. split; [reflexivity|]. split; [reflexivity|].
    intros i. now rewrite firstn_nil.
  - destruct (Z.leb_spec remaining 0) as [Hle | Hgt].
    + exists results. split; [reflexivity|]. split; [reflexivity|].
      intros i. replace (Z.to_nat remaining) with O by lia. reflexivity.
    + inversion Hnd as [ | ? ? Hnotin Hnd']; subst.
      inversion Hb as [ | ? ? Hidx Hb']; subst.
      destruct (increment_spec idx results Hidx) as (r1 & -> & Hlen1 & Hnth1).
      assert (Hsub : GoInt.sub remaining 1 = remaining - 1).
      { unfold GoInt.sub. apply wrap_id.
        unfold GoInt.in_range, GoInt.min_int, GoInt.max_int in *. lia. }
      rewrite Hsub.
      destruct (IH (remaining - 1) r1) as (out & Hout & Hlen & Hnth).
      * unfold GoInt.in_range, GoInt.min_int, GoInt.max_int in *. lia.
      * assumption.
      * rewrite Hlen1. assumption.
      * exists out. split; [exact Hout|]. split; [lia|].
        intros i. rewrite Hnth, Hnth1.
        replace (Z.to_nat remaining) with (S (Z.to_nat (remaining - 1))) by lia.
        cbn [firstn taken existsb]. fold (taken i (firstn (Z.to_nat (remaining - 1)) rest)).
        destruct (Nat.eqb_spec i idx) as [-> | Hne]; cbn [orb]; [|reflexivity].
        rewrite taken_false; [reflexivity|].
        intros Hin. apply Hnotin. eapply firstn_incl. exact Hin.
Qed.

(** * The order of [sort.Float64Slice] and the insertion sort *)

(** ** The order of [sort.Float64Slice] *)

Lemma compare_cont_Eq_Lt (p q : positive) :
  Pos.compare_cont Eq p q = Lt <-> (Zpos p < Zpos q).
Proof.
  rewrite Pos.compare_cont_spec.
  destruct (Pos.compare_spec p q); cbn; split; intros; subst; try lia; try discriminate; reflexivity.
Qed.

Lemma compare_cont_Eq_Gt (p q : positive) :
  Pos.compare_cont Eq p q = Gt <-> (Zpos q < Zpos p).
Proof.
  rewrite Pos.compare_cont_spec.
  destruct (Pos.compare_spec p q); cbn; split; intros; subst; try lia; try discriminate; reflexivity.
Qed.

Lemma compare_cont_Eq_Eq (p q : positive) :
  Pos.compare_cont Eq p q = Eq -> p = q.
Proof.
  rewrite Pos.compare_cont_spec.
  destruct (Pos.compare_spec p q); cbn; intros; subst; try discriminate; reflexivity.
Qed.

Lemma float64Less_rank (x y : Float64.t) :
  float64Less x y = true <-> rankLt (rank x) (rank y).
Proof.
  unfold float64Less, Float64.ltb, SFltb, rankLt.
  destruct x as [sx | sx | | sx mx ex], y as [sy | sy | | sy my ey];
    try destruct sx; try destruct sy;
    cbn [SFcompare Float64.isNaN rank andb orb negb];
    try (split; [discriminate | intros H; exfalso; lia]);
    try (split; [intros _; lia | reflexivity]).
  - (* two negative numbers *)
    destruct (Z.compare_spec ex ey) as [He | He | He].
    + subst ey. destruct (Pos.compare_cont Eq mx my) eqn:E; cbn [CompOpp].
      * split; [discriminate|]. intros H; exfalso.
        apply compare_cont_Eq_Eq in E. subst. lia.
      * split; [discriminate|]. intros H; exfalso.
        apply (proj1 (compare_cont_Eq_Lt _ _)) in E. lia.
      * split; [intros _ | reflexivity]. apply (proj1 (compare_cont_Eq_Gt _ _)) in E. lia.
    + split; [discriminate | intros H; exfalso; lia].
    + split; [intros _; lia | reflexivity].
  - (* two positive numbers *)
    destruct (Z.compare_spec ex ey) as [He | He | He].
    + subst ey. destruct (Pos.compare_cont Eq mx my) eqn:E.
      * split; [discriminate|]. intros H; exfalso.
        apply compare_cont_Eq_Eq in E. subst. lia.
      * split; [intros _ | reflexivity]. apply (proj1 (compare_cont_Eq_Lt _ _)) in E. lia.
      * split; [discriminate|]. intros H; exfalso.
        apply (proj1 (compare_cont_Eq_Gt _ _)) in E. lia.
    + split; [intros _; lia | reflexivity].
    + split; [discriminate | intros H; exfalso; lia].
Qed.

Lemma float64Less_false_rank (x y : Float64.t) :
  float64Less x y = false <-> ~ rankLt (rank x) (rank y).
Proof.
  rewrite <- float64Less_rank. destruct (float64Less x y); split; congruence.
Qed.

Lemma float64Less_asym (x y : Float64.t) :
  float64Less x y = true -> float64Less y x = false.
Proof.
  rewrite float64Less_false_rank, float64Less_rank. unfold rankLt.
  destruct (rank x) as [[a1 a2] a3], (rank y) as [[b1 b2] b3]. lia.
Qed.

Lemma float64Less_negtrans (x y z : Float64.t) :
  float64Less x y = false -> float64Less y z = false -> float64Less x z = false.
Proof.
  rewrite !float64Less_false_rank. unfold rankLt.
  destruct (rank x) as [[a1 a2] a3], (rank y) as [[b1 b2] b3],
    (rank z) as [[c1 c2] c3]. lia.
Qed.

(** ** The insertion sort keeps the contract of [sort.Sort] *)

Section InsertionSort.

Context {A : Type}.
Variable less : A -> A -> bool.
Hypothesis less_asym : forall a b, less a b = true -> less b a = false.
Hypothesis less_negtrans :
  forall a b c, less a b = false -> less b c = false -> less a c = false.

Lemma insertDown_perm (x : A) (l : list A) :
  Permutation (insertDown less x l) (x :: l).
Proof.
  induction l as [ | y l IH]; cbn [insertDown]; [reflexivity|].
  destruct (less x y); [|reflexivity].
  rewrite IH. apply perm_swap.
Qed.

Lemma insertDown_sorted (x : A) (l : list A) :
  sortedBy (fun a b => less b a) l ->
  sortedBy (fun a b => less b a) (insertDown less x l).
Proof.
  induction 1 as [ | y l Hall Hs IH]; cbn [insertDown].
  - constructor; [constructor | constructor].
  - destruct (less x y) eqn:E.
    + constructor; [|exact IH].
      apply Forall_forall. intros z Hz.
      apply (Permutation_in _ (insertDown_perm x l)) in Hz.
      destruct Hz as [<- | Hz]; [now apply less_asym|].
      rewrite Forall_forall in Hall. now apply Hall.
    + constructor; [|constructor; assumption].
      constructor; [exact E|].
      rewrite Forall_forall in Hall |- *. intros z Hz.
      apply less_negtrans with y; [exact E | now apply Hall].
Qed.

Lemma sortedBy_snoc (l : list A) (x : A) :
  sortedBy less l -> Forall (fun a => less x a = false) l ->
  sortedBy less (l ++ [x]).
Proof.
  induction 1 as [ | a l Hall Hs IH]; intros Hx; cbn [app].
  - constructor; constructor.
  - inversion Hx as [ | ? ? Hxa Hxl]; subst.
    constructor; [|now apply IH].
    apply Forall_app. split; [assumption|]. constructor; [assumption | constructor].
Qed.

Lemma sortedBy_rev (l : list A) :
  sortedBy (fun a b => less b a) l -> sortedBy less (rev l).
Proof.
  induction 1 as [ | a l Hall Hs IH]; cbn [rev]; [constructor|].
  apply sortedBy_snoc; [exact IH|].
  apply Forall_forall. intros z Hz. apply in_rev in Hz.
  rewrite Forall_forall in Hall. now apply Hall.
Qed.

Lemma insertionSort_fold (s acc : list A) :
  sortedBy (fun a b => less b a) acc ->
  Permutation (fold_left (fun revPrefix x => insertDown less x revPrefix) s acc)
              (s ++ acc) /\
  sortedBy (fun a b => less b a)
           (fold_left (fun revPrefix x => insertDown less x revPrefix) s acc).
Proof.
  revert acc. induction s as [ | x s IH]; intros acc Hacc; cbn [fold_left app].
  - split; [reflexivity | assumption].
  - destruct (IH (insertDown less x acc) (insertDown_sorted x acc Hacc)) as [Hp Hs].
    split; [|exact Hs].
    rewrite Hp, insertDown_perm. symmetry. apply Permutation_middle.
Qed.

Lemma insertionSort_contract (s : list A) :
  Permutation (insertionSort less s) s /\ sortedBy less (insertionSort less s).
Proof.
  unfold insertionSort.
  destruct (insertionSort_fold s [] (sortedBy_nil _)) as [Hp Hs].
  split.
  - rewrite <- Permutation_rev, Hp, app_nil_r. reflexivity.
  - now apply sortedBy_rev.
Qed.

End InsertionSort.

Lemma insertionSortReverse_contract : sortContract insertionSortReverse.
Proof.
  intros s. apply insertionSort_contract.
  - intros a b. unfold reverseLess. apply float64Less_asym.
  - intros a b c Hab Hbc. unfold reverseLess in *.
    now apply float64Less_negtrans with (fst b).
Qed.

(** * Sums and counts over indices *)

(** ** Sums over indices *)

Lemma zsum_map_perm (g : nat -> Z) (l l' : list nat) :
  Permutation l l' -> zsum (map g l) = zsum (map g l').
Proof.
  induction 1 as [ | x l l' _ IH | x y l | l l' l'' _ IH1 _ IH2]; cbn [map].
  - reflexivity.
  - rewrite !zsum_cons. lia.
  - rewrite !zsum_cons. lia.
  - lia.
Qed.

Lemma zsum_map_le (g h : nat -> Z) (l : list nat) :
  (forall i, In i l -> g i <= h i) -> zsum (map g l) <= zsum (map h l).
Proof.
  induction l as [ | a l IH]; intros H; cbn [map]; [reflexivity|].
  rewrite !zsum_cons.
  assert (g a <= h a) by (apply H; now left).
  assert (zsum (map g l) <= zsum (map h l)) by (apply IH; intros; apply H; now right).
  lia.
Qed.

Lemma zsum_map_ext (g h : nat -> Z) (l : list nat) :
  (forall i, In i l -> g i = h i) -> zsum (map g l) = zsum (map h l).
Proof. intros H. f_equal. now apply map_ext_in. Qed.

Lemma zsum_map_add (g h : nat -> Z) (l : list nat) :
  zsum (map (fun i => g i + h i) l) = zsum (map g l) + zsum (map h l).
Proof.
  induction l as [ | a l IH]; cbn [map]; [reflexivity|].
  rewrite !zsum_cons. lia.
Qed.

Lemma zsum_map_scale (c : Z) (g : nat -> Z) (l : list nat) :
  zsum (map (fun i => c * g i) l) = c * zsum (map g l).
Proof.
  induction l as [ | a l IH]; cbn [map]; [change (zsum []) with 0; lia|].
  rewrite !zsum_cons. lia.
Qed.

Lemma zsum_map_const (c : Z) (l : list nat) :
  zsum (map (fun _ => c) l) = c * Z.of_nat (length l).
Proof.
  induction l as [ | a l IH]; cbn [map length]; [change (zsum []) with 0; lia|].
  rewrite zsum_cons. lia.
Qed.

Lemma nth_map_lt {A B : Type} (g : A -> B) (l : list A) (i : nat) (d : A) (d' : B) :
  (i < length l)%nat -> nth i (map g l) d' = g (nth i l d).
Proof.
  intros H. rewrite (nth_indep _ d' (g d)) by (now rewrite length_map).
  apply map_nth.
Qed.

Lemma list_as_map_nth (l : list Z) :
  l = map (fun i => nth i l 0) (seq 0 (length l)).
Proof.
  induction l as [ | a l IH]; [reflexivity|].
  cbn [length seq map nth]. f_equal.
  rewrite <- seq_shift, map_map. exact IH.
Qed.

Lemma zsum_seq_map (g : Z -> Z) (ws : list Z) :
  zsum (map g ws) =
  zsum (map (fun i => g (nth i ws 0)) (seq 0 (length ws))).
Proof.
  rewrite (list_as_map_nth (map g ws)) at 1.
  rewrite length_map. apply zsum_map_ext.
  intros i Hi. apply in_seq in Hi. apply nth_map_lt. lia.
Qed.

Lemma zsum_seq (ws : list Z) :
  zsum ws = zsum (map (fun i => nth i ws 0) (seq 0 (length ws))).
Proof. now rewrite <- list_as_map_nth. Qed.

(** ** Counting *)

Lemma count_perm (p : nat -> bool) (l l' : list nat) :
  Permutation l l' -> count p l = count p l'.
Proof. apply zsum_map_perm. Qed.

Lemma count_app (p : nat -> bool) (l l' : list nat) :
  count p (l ++ l') = count p l + count p l'.
Proof. unfold count. now rewrite map_app, zsum_app. Qed.

Lemma count_nonneg (p : nat -> bool) (l : list nat) : 0 <= count p l.
Proof.
  unfold count. apply zsum_nonneg. apply Forall_forall.
  intros x Hx. apply in_map_iff in Hx. destruct Hx as (i & <- & _).
  destruct (p i); lia.
Qed.

Lemma count_all (p : nat -> bool) (l : list nat) :
  (forall i, In i l -> p i = true) -> count p l = Z.of_nat (length l).
Proof.
  intros H. unfold count.
  rewrite (zsum_map_ext _ (fun _ => 1)).
  - rewrite zsum_map_const. lia.
  - intros i Hi. now rewrite H.
Qed.

Lemma count_none (p : nat -> bool) (l : list nat) :
  (forall i, In i l -> p i = false) -> count p l = 0.
Proof.
  intros H. unfold count.
  rewrite (zsum_map_ext _ (fun _ => 0)).
  - rewrite zsum_map_const. lia.
  - intros i Hi. now rewrite H.
Qed.

Lemma count_In (p : nat -> bool) (l : list nat) (i : nat) :
  In i l -> p i = true -> 1 <= count p l.
Proof.
  intros Hi Hp. apply in_split in Hi. destruct Hi as (l1 & l2 & ->).
  rewrite count_app. unfold count at 2. cbn [map]. rewrite zsum_cons, Hp.
  fold (count p l2).
  pose proof (count_nonneg p l1). pose proof (count_nonneg p l2). lia.
Qed.

(** The indices taken by the second loop, counted among all indices. *)
Lemma count_taken (order : list nat) (k n : nat) :
  Permutation order (seq 0 n) ->
  count (fun i => taken i (firstn k order)) (seq 0 n)
  = Z.of_nat (length (firstn k order)).
Proof.
  intros Hperm.
  assert (Hnd : NoDup order)
    by (apply (Permutation_NoDup (Permutation_sym Hperm)), seq_NoDup).
  rewrite <- (count_perm _ _ _ Hperm).
  set (p := fun i => taken i (firstn k order)).
  replace (count p order) with (count p (firstn k order ++ skipn k order))
    by (now rewrite firstn_skipn).
  rewrite count_app, count_all, count_none; [lia | | ].
  - intros i Hi. apply taken_false. intros Hin.
    rewrite <- (firstn_skipn k order) in Hnd.
    revert Hnd Hi Hin. generalize (firstn k order) (skipn k order).
    intros l1 l2 Hnd Hi Hin.
    induction l1 as [ | a l1 IH]; [contradiction|].
    cbn [app] in Hnd. inversion Hnd as [ | ? ? Hna Hnd']; subst.
    destruct Hin as [-> | Hin].
    + apply Hna. apply in_or_app. now right.
    + now apply IH.
  - intros i Hi. now apply taken_true.
Qed.

(** * The largest-remainder apportionment *)

(** ** The second loop on truncated percentages that fall short of 100 by
    no more than their number *)

Lemma distribute_sum (order : list nat) (results : list Z) :
  Permutation order (seq 0 (length results)) ->
  Forall (fun r => 0 <= r) results ->
  100 - Z.of_nat (length results) <= zsum results <= 100 ->
  exists out,
    distribute order (GoInt.sub 100 (intSum results)) results = Some out /\
    length out = length results /\
    zsum out = 100 /\
    forall i, (i < length results)%nat ->
      nth i out 0 =
      nth i results 0 +
      (if taken i (firstn (Z.to_nat (100 - zsum results)) order) then 1 else 0).
Proof.
  intros Hperm Hnn Hsum.
  pose proof (zsum_nonneg results Hnn) as Hz.
  assert (Hrem : GoInt.sub 100 (intSum results) = 100 - zsum results).
  { rewrite intSum_zsum; [ | exact Hnn | unfold GoInt.max_int; lia].
    unfold GoInt.sub. apply wrap_id.
    unfold GoInt.in_range, GoInt.min_int, GoInt.max_int. lia. }
  rewrite Hrem.
  destruct (distribute_spec order (100 - zsum results) results)
    as (out & Hout & Hlen & Hnth).
  - unfold GoInt.in_range, GoInt.min_int, GoInt.max_int. lia.
  - apply (Permutation_NoDup (Permutation_sym Hperm)), seq_NoDup.
  - apply Forall_forall. intros i Hi.
    apply (Permutation_in _ Hperm) in Hi. apply in_seq in Hi. lia.
  - assert (Hval : forall i, (i < length results)%nat ->
              nth i out 0 =
              nth i results 0 +
              (if taken i (firstn (Z.to_nat (100 - zsum results)) order)
               then 1 else 0)).
    { intros i Hi. rewrite Hnth.
      destruct (taken i (firstn (Z.to_nat (100 - zsum results)) order)); [|lia].
      unfold GoInt.add. apply wrap_id.
      pose proof (zsum_bound results Hnn) as Hb. rewrite Forall_forall in Hb.
      specialize (Hb (nth i results 0) (nth_In _ _ Hi)).
      unfold GoInt.in_range, GoInt.min_int, GoInt.max_int. lia. }
    exists out. split; [exact Hout|]. split; [exact Hlen|]. split; [|exact Hval].
    rewrite zsum_seq, Hlen.
    rewrite (zsum_map_ext _
               (fun i => nth i results 0 +
                         (if taken i (firstn (Z.to_nat (100 - zsum results)) order)
                          then 1 else 0)))
      by (intros i Hi; apply in_seq in Hi; apply Hval; lia).
    rewrite zsum_map_add, <- zsum_seq.
    fold (count (fun i => taken i (firstn (Z.to_nat (100 - zsum results)) order))
            (seq 0 (length results))).
    rewrite (count_taken _ _ _ Hperm).
    rewrite firstn_length_le; [lia|].
    rewrite (Permutation_length Hperm), length_seq. lia.
Qed.

Section Apportion.

Variable sortSort : argSlice -> argSlice.
Hypothesis contract : sortContract sortSort.

Variable ws : list Z.
Variable total : Z.
Hypothesis total_range : 0 < total <= 2 ^ 40.
Hypothesis ws_range : Forall (fun w => 0 <= w <= total) ws.
Hypothesis ws_sum : zsum ws = total.

Local Abbreviation N := (length ws).
Local Abbreviation W i := (nth i ws 0).
Local Abbreviation R i := (fst (percent total (nth i ws 0))).
Local Abbreviation F i := (exactFloor total (nth i ws 0)).
Local Abbreviation U i := (under total (nth i ws 0)).
Local Abbreviation results := (fst (firstLoop ws total)).
Local Abbreviation remainders := (snd (firstLoop ws total)).
Local Abbreviation order := (argsort sortSort (snd (firstLoop ws total))).
Local Abbreviation remaining := (GoInt.sub 100 (intSum (fst (firstLoop ws total)))).

Lemma W_range (i : nat) : (i < N)%nat -> 0 <= W i <= total.
Proof.
  intros Hi. rewrite Forall_forall in ws_range. apply ws_range. now apply nth_In.
Qed.

Lemma results_nth (i : nat) : (i < N)%nat -> nth i results 0 = R i.
Proof.
  intros Hi. cbn [firstLoop fst].
  exact (nth_map_lt (fun w => fst (percent total w)) ws i 0 0 Hi).
Qed.

Lemma remainders_nth (i : nat) :
  (i < N)%nat ->
  nth i remainders (S754_zero false) = snd (percent total (W i)).
Proof.
  intros Hi. cbn [firstLoop snd].
  exact (nth_map_lt (fun w => snd (percent total w)) ws i 0 (S754_zero false) Hi).
Qed.

Lemma results_length : length results = N.
Proof. cbn [firstLoop fst]. apply length_map. Qed.

Lemma remainders_length : length remainders = N.
Proof. cbn [firstLoop snd]. apply length_map. Qed.

Lemma results_sum :
  zsum results = zsum (map (fun i => R i) (seq 0 N)).
Proof.
  cbn [firstLoop fst].
  exact (zsum_seq_map (fun w => fst (percent total w)) ws).
Qed.

Lemma weights_sum : zsum (map (fun i => W i) (seq 0 N)) = total.
Proof. rewrite <- zsum_seq. exact ws_sum. Qed.

Lemma weights_sum_scaled :
  zsum (map (fun i => W i * 100) (seq 0 N)) = total * 100.
Proof.
  rewrite (zsum_map_ext _ (fun i => 100 * W i)) by (intros; lia).
  rewrite zsum_map_scale, weights_sum. lia.
Qed.

Lemma results_nonneg : Forall (fun r => 0 <= r) results.
Proof.
  cbn [firstLoop fst]. apply Forall_forall. intros r Hr.
  apply in_map_iff in Hr. destruct Hr as (w & <- & Hw).
  rewrite Forall_forall in ws_range.
  apply (percent_bounds total w total_range (ws_range w Hw)).
Qed.

Lemma results_sum_le : zsum results <= 100.
Proof.
  assert (H : total * zsum results <= total * 100).
  { rewrite results_sum, <- zsum_map_scale, <- weights_sum_scaled.
    apply zsum_map_le. intros i Hi. apply in_seq in Hi.
    pose proof (percent_bounds total (W i) total_range (W_range i ltac:(lia))). lia. }
  nia.
Qed.

Lemma results_sum_ge : 100 <= zsum results + Z.of_nat N.
Proof.
  assert (H : total * 100 <= total * (zsum results + Z.of_nat N)).
  { rewrite <- weights_sum_scaled.
    replace (total * (zsum results + Z.of_nat N))
      with (zsum (map (fun i => total * R i + total) (seq 0 N))).
    - apply zsum_map_le. intros i Hi. apply in_seq in Hi.
      pose proof (percent_bounds total (W i) total_range (W_range i ltac:(lia))). lia.
    - rewrite zsum_map_add, zsum_map_scale, zsum_map_const, length_seq, <- results_sum.
      lia. }
  nia.
Qed.

Lemma floors_sum_le : zsum (map (fun i => F i) (seq 0 N)) <= 100.
Proof.
  assert (H : total * zsum (map (fun i => F i) (seq 0 N)) <= total * 100).
  { rewrite <- zsum_map_scale, <- weights_sum_scaled.
    apply zsum_map_le. intros i Hi. unfold exactFloor.
    pose proof (Z.mul_div_le (W i * 100) total ltac:(lia)). lia. }
  nia.
Qed.

Lemma under_count :
  count (fun i => U i) (seq 0 N)
  = zsum (map (fun i => F i) (seq 0 N)) - zsum results.
Proof.
  rewrite results_sum. unfold count.
  assert (H : zsum (map (fun i => F i) (seq 0 N))
              = zsum (map (fun i => R i + (if U i then 1 else 0)) (seq 0 N))).
  { apply zsum_map_ext. intros i Hi. apply in_seq in Hi.
    pose proof (percent_bounds total (W i) total_range (W_range i ltac:(lia))). lia. }
  rewrite H, zsum_map_add. lia.
Qed.

Lemma remaining_value : remaining = 100 - zsum results.
Proof.
  pose proof results_sum_le. pose proof (zsum_nonneg _ results_nonneg).
  rewrite intSum_zsum; [ | exact results_nonneg | unfold GoInt.max_int; lia].
  unfold GoInt.sub. apply wrap_id.
  unfold GoInt.in_range, GoInt.min_int, GoInt.max_int. lia.
Qed.

Lemma remaining_range : 0 <= remaining <= Z.of_nat N.
Proof.
  rewrite remaining_value.
  pose proof results_sum_le. pose proof results_sum_ge. lia.
Qed.

Lemma order_perm : Permutation order (seq 0 N).
Proof. rewrite <- remainders_length. now apply argsort_perm. Qed.

Lemma taken_length :
  Z.of_nat (length (firstn (Z.to_nat remaining) order)) = remaining.
Proof.
  pose proof remaining_range.
  rewrite firstn_length_le; [lia|].
  rewrite (Permutation_length order_perm), length_seq. lia.
Qed.

(** Among the indices in sorted order, an earlier one has no smaller
    remainder. *)
Lemma order_sorted (i j : nat) :
  In i (firstn (Z.to_nat remaining) order) ->
  In j (skipn (Z.to_nat remaining) order) ->
  float64Less (snd (percent total (W i))) (snd (percent total (W j))) = false.
Proof.
  intros Hi Hj.
  pose proof (argsort_sorted sortSort contract remainders) as Hs.
  rewrite <- (firstn_skipn (Z.to_nat remaining) order) in Hs.
  pose proof (sortedBy_app _ _ _ Hs i j Hi Hj) as H. cbv beta in H.
  assert (Hin : forall k, In k order -> (k < N)%nat).
  { intros k Hk. apply (Permutation_in _ order_perm) in Hk.
    apply in_seq in Hk. lia. }
  assert (Hi' : (i < N)%nat) by (apply Hin; eapply firstn_incl; exact Hi).
  assert (Hj' : (j < N)%nat).
  { apply Hin. rewrite <- (firstn_skipn (Z.to_nat remaining) order).
    apply in_or_app. now right. }
  rewrite (remainders_nth i Hi'), (remainders_nth j Hj') in H. exact H.
Qed.

(** Every index whose percentage was truncated one too low is among
    those the second loop increments. *)
Lemma under_taken (i : nat) :
  (i < N)%nat -> U i = true ->
  taken i (firstn (Z.to_nat remaining) order) = true.
Proof.
  intros Hi HU.
  destruct (taken i (firstn (Z.to_nat remaining) order)) eqn:E; [reflexivity | exfalso].
  assert (Hnot : ~ In i (firstn (Z.to_nat remaining) order)).
  { intros Hin. apply taken_true in Hin. congruence. }
  assert (Hskip : In i (skipn (Z.to_nat remaining) order)).
  { assert (Hord : In i order).
    { apply (Permutation_in _ (Permutation_sym order_perm)). apply in_seq. lia. }
    rewrite <- (firstn_skipn (Z.to_nat remaining) order) in Hord.
    apply in_app_or in Hord. tauto. }
  assert (Hall : forall j, In j (firstn (Z.to_nat remaining) order) -> U j = true).
  { intros j Hj. destruct (U j) eqn:Uj; [reflexivity | exfalso].
    assert (Hjn : (j < N)%nat).
    { apply firstn_incl in Hj. apply (Permutation_in _ order_perm) in Hj.
      apply in_seq in Hj. lia. }
    pose proof (order_sorted j i Hj Hskip) as Hs.
    rewrite (under_first total (W i) (W j) total_range
               (W_range i Hi) (W_range j Hjn) HU Uj) in Hs.
    discriminate. }
  pose proof under_count as Hc.
  rewrite <- (count_perm _ _ _ order_perm) in Hc.
  replace (count (fun i => U i) order)
    with (count (fun i => U i)
            (firstn (Z.to_nat remaining) order ++ skipn (Z.to_nat remaining) order))
    in Hc by (now rewrite firstn_skipn).
  rewrite count_app, (count_all _ _ Hall), taken_length in Hc.
  pose proof (count_In (fun i => U i) _ i Hskip HU).
  pose proof floors_sum_le. rewrite remaining_value in Hc, H. lia.
Qed.

Lemma apportion :
  exists out,
    distribute order remaining results = Some out /\
    largestRemainder total ws out.
Proof.
  destruct (distribute_sum order results) as (out & Hout & Hlen & Hs & Hval0).
  - rewrite results_length. exact order_perm.
  - exact results_nonneg.
  - rewrite results_length.
    pose proof results_sum_le. pose proof results_sum_ge. lia.
  - rewrite results_length in Hlen, Hval0.
    assert (Hval : forall i, (i < N)%nat ->
              nth i out 0 =
              R i + (if taken i (firstn (Z.to_nat remaining) order) then 1 else 0)).
    { intros i Hi. rewrite (Hval0 i Hi), remaining_value, results_nth by assumption.
      reflexivity. }
    exists out. split; [exact Hout|].
    split; [exact Hlen|]. split; [exact Hs|]. split.
    + (* every entry is its floor or one more *)
      intros i Hi. rewrite (Hval i Hi).
      pose proof (percent_bounds total (W i) total_range (W_range i Hi))
        as (_ & _ & _ & HR).
      destruct (U i) eqn:HU.
      * rewrite (under_taken i Hi HU). left. lia.
      * destruct (taken i (firstn (Z.to_nat remaining) order)); [right | left]; lia.
    + (* the extra units went to the largest remainders *)
      intros i j Hi Hj Hi1 Hj0.
      rewrite (Hval i Hi) in Hi1. rewrite (Hval j Hj) in Hj0.
      pose proof (percent_bounds total (W i) total_range (W_range i Hi))
        as (_ & _ & _ & HRi).
      pose proof (percent_bounds total (W j) total_range (W_range j Hj))
        as (_ & _ & _ & HRj).
      pose proof (Z.mod_pos_bound (W i * 100) total ltac:(lia)) as Hrhoi.
      fold (exactRemainder total (W i)) in Hrhoi.
      destruct (U j) eqn:HUj.
      * destruct (under_true total (W j) total_range (W_range j Hj) HUj) as (-> & _).
        lia.
      * destruct (U i) eqn:HUi;
          [destruct (taken i (firstn (Z.to_nat remaining) order)); lia|].
        destruct (taken i (firstn (Z.to_nat remaining) order)) eqn:Ti; [|lia].
        destruct (taken j (firstn (Z.to_nat remaining) order)) eqn:Tj; [lia|].
        apply taken_true in Ti.
        assert (Hskip : In j (skipn (Z.to_nat remaining) order)).
        { assert (Hord : In j order).
          { apply (Permutation_in _ (Permutation_sym order_perm)). apply in_seq. lia. }
          rewrite <- (firstn_skipn (Z.to_nat remaining) order) in Hord.
          apply in_app_or in Hord. destruct Hord as [Hf | Hsk]; [|exact Hsk].
          apply taken_true in Hf. congruence. }
        pose proof (order_sorted i j Ti Hskip) as Hord.
        destruct (Z.leb_spec (exactRemainder total (W j)) (exactRemainder total (W i)))
          as [Hle | Hlt]; [exact Hle | exfalso].
        rewrite (remainder_order total (W i) (W j) total_range
                   (W_range i Hi) (W_range j Hj) HUi HUj Hlt) in Hord.
        discriminate.
Qed.

End Apportion.

(** * [standardizeWeights] as a whole *)

Lemma standardizeWeights_unfold (sortSort : argSlice -> argSlice) (weights : list Z) :
  length weights <> 1%nat ->
  standardizeWeights sortSort weights =
  let ws := fst (fallback weights) in
  let total := snd (fallback weights) in
  mkOutcome ws
    (distribute (argsort sortSort (snd (firstLoop ws total)))
       (GoInt.sub 100 (intSum (fst (firstLoop ws total))))
       (fst (firstLoop ws total))).
Proof.
  intros H. unfold standardizeWeights.
  destruct (Nat.eqb_spec (length weights) 1) as [E | _]; [contradiction|].
  destruct (fallback weights) as [ws total]. reflexivity.
Qed.

Lemma fallback_length (weights : list Z) :
  length (fst (fallback weights)) = length weights.
Proof.
  unfold fallback. destruct (intSum weights =? 0); cbn [fst];
    [apply length_map | reflexivity].
Qed.

Lemma firstLoop_length (ws : list Z) (total : Z) :
  length (fst (firstLoop ws total)) = length ws /\
  length (snd (firstLoop ws total)) = length ws.
Proof. cbn [firstLoop fst snd]. now rewrite !length_map. Qed.

Lemma zsum_ones (weights : list Z) :
  zsum (map (fun _ => 1) weights) = Z.of_nat (length weights).
Proof.
  induction weights as [ | w l IH]; [reflexivity|].
  cbn [map length]. rewrite zsum_cons, IH. lia.
Qed.

(** The weights and the total that reach the first loop, for weights
    that are not negative and whose sum fits an [int]. *)
Lemma fallback_spec (weights : list Z) :
  weights <> [] ->
  Forall (fun w => 0 <= w) weights ->
  zsum weights <= GoInt.max_int ->
  let ws := fst (fallback weights) in
  let total := snd (fallback weights) in
  0 < total /\
  Forall (fun w => 0 <= w <= total) ws /\
  zsum ws = total /\
  (zsum weights <> 0 -> ws = weights /\ total = zsum weights) /\
  (zsum weights = 0 ->
   ws = map (fun _ => 1) weights /\ total = Z.of_nat (length weights)).
Proof.
  intros Hne Hnn Hsum.
  pose proof (zsum_nonneg weights Hnn) as H0.
  unfold fallback. rewrite intSum_zsum by assumption.
  destruct (Z.eqb_spec (zsum weights) 0) as [E | E]; cbn [fst snd].
  - assert (Hpos : (0 < length weights)%nat)
      by (destruct weights; [congruence | cbn; lia]).
    split; [lia|]. split; [|split; [apply zsum_ones | split; [congruence | auto]]].
    apply Forall_forall. intros x Hx. apply in_map_iff in Hx.
    destruct Hx as (_ & <- & _). lia.
  - split; [lia|]. split; [now apply zsum_bound|].
    split; [reflexivity|]. split; [auto | congruence].
Qed.

Lemma fallback_total_bound (weights : list Z) (bound : Z) :
  Z.of_nat (length weights) <= bound -> zsum weights <= bound ->
  bound <= GoInt.max_int ->
  Forall (fun w => 0 <= w) weights ->
  snd (fallback weights) <= bound.
Proof.
  intros Hlen Hsum Hb Hnn. unfold fallback.
  rewrite intSum_zsum by (assumption || lia).
  destruct (zsum weights =? 0); cbn [snd]; lia.
Qed.

(** One truncated percentage against the exact one. *)
Lemma percent_interval (total w : Z) :
  0 < total < 2 ^ 63 -> 0 <= w <= total ->
  0 <= fst (percent total w) /\
  (IZR (fst (percent total w)) <= 100 * (IZR w / IZR total) + delta)%R /\
  (100 * (IZR w / IZR total) - delta - 1 <= IZR (fst (percent total w)))%R.
Proof.
  intros HT Hw.
  destruct (Z.eqb_spec w 0) as [-> | Hw0].
  - rewrite percent_zero by exact HT. cbn [fst].
    unfold delta, Rdiv. rewrite Rmult_0_l, Rmult_0_r. split; [lia | lra].
  - destruct (percent_real total w ltac:(lia) ltac:(lia)) as (v & _ & Hr & Hfl & _ & Hv).
    split; [exact Hr | lra].
Qed.

(** The truncated percentages of a list of weights, summed. *)
Lemma results_real_bounds (total : Z) (l : list Z) :
  0 < total < 2 ^ 63 -> Forall (fun w => 0 <= w <= total) l ->
  Forall (fun r => 0 <= r) (map (fun w => fst (percent total w)) l) /\
  (IZR (zsum (map (fun w => fst (percent total w)) l))
     <= 100 * (IZR (zsum l) / IZR total) + IZR (Z.of_nat (length l)) * delta)%R /\
  (100 * (IZR (zsum l) / IZR total) - IZR (Z.of_nat (length l)) * (delta + 1)
     <= IZR (zsum (map (fun w => fst (percent total w)) l)))%R.
Proof.
  intros HT. induction 1 as [ | w l Hw Hl IH].
  - cbn [map length]. change (zsum []) with 0. cbn [Z.of_nat].
    unfold Rdiv. rewrite !Rmult_0_l, Rmult_0_r. split; [constructor | lra].
  - destruct IH as (IH0 & IH1 & IH2).
    destruct (percent_interval total w HT Hw) as (H0 & H1 & H2).
    cbn [map]. rewrite !zsum_cons, !plus_IZR.
    replace (Z.of_nat (length (w :: l))) with (1 + Z.of_nat (length l))
      by (cbn [length]; lia).
    rewrite plus_IZR. unfold Rdiv in *. rewrite Rmult_plus_distr_r.
    split; [constructor; assumption | lra].
Qed.

(** One truncated percentage against the exact one, relatively: a
    truncated percentage that is not 0 belongs to an exact percentage of
    at least [1 - delta], on which the error [delta] is a small part. *)
Lemma percent_relative (total w : Z) :
  0 < total < 2 ^ 63 -> 0 <= w <= total ->
  (IZR (fst (percent total w)) <= (1 + 2 * delta) * (100 * (IZR w / IZR total)))%R.
Proof.
  intros HT Hw.
  destruct (percent_interval total w HT Hw) as (H0 & H1 & _).
  assert (Hx : (0 <= 100 * (IZR w / IZR total))%R).
  { apply Rmult_le_pos; [lra|]. unfold Rdiv. apply Rmult_le_pos.
    - apply IZR_le. lia.
    - apply Rlt_le, Rinv_0_lt_compat, IZR_lt. lia. }
  set (x := (100 * (IZR w / IZR total))%R) in *.
  destruct (Z.eqb_spec (fst (percent total w)) 0) as [E | E].
  - rewrite E. unfold delta. nra.
  - assert (H1r : (1 <= IZR (fst (percent total w)))%R) by (apply IZR_le; lia).
    unfold delta in *. nra.
Qed.

(** The truncated percentages of a list of weights, summed, against the
    exact percentage of the sum of the weights: whatever the number of
    the weights. *)
Lemma results_relative_bound (total : Z) (l : list Z) :
  0 < total < 2 ^ 63 -> Forall (fun w => 0 <= w <= total) l ->
  (IZR (zsum (map (fun w => fst (percent total w)) l))
     <= (1 + 2 * delta) * (100 * (IZR (zsum l) / IZR total)))%R.
Proof.
  intros HT. induction 1 as [ | w l Hw Hl IH].
  - cbn [map]. change (zsum []) with 0.
    unfold Rdiv. rewrite Rmult_0_l, !Rmult_0_r. lra.
  - pose proof (percent_relative total w HT Hw) as H1.
    cbn [map]. rewrite !zsum_cons, !plus_IZR.
    unfold Rdiv in *. rewrite Rmult_plus_distr_r. lra.
Qed.

Section Standardized.

Variable sortSort : argSlice -> argSlice.
Hypothesis contract : sortContract sortSort.

(** On the inputs of the callers the call returns the largest-remainder
    apportionment of the weights that reach the first loop. *)
Lemma standardizeWeights_apportion (weights : list Z) :
  (2 <= length weights)%nat ->
  Forall (fun w => 0 <= w) weights ->
  Z.of_nat (length weights) <= 2 ^ 40 -> zsum weights <= 2 ^ 40 ->
  exists out,
    returned (standardizeWeights sortSort weights) = Some out /\
    largestRemainder (snd (fallback weights)) (fst (fallback weights)) out.
Proof.
  intros HN Hnn Hlen Hsum.
  assert (Hne : weights <> []) by (destruct weights; [cbn in HN; lia | congruence]).
  assert (H40 : 2 ^ 40 <= GoInt.max_int) by (unfold GoInt.max_int; cbn; lia).
  destruct (fallback_spec weights Hne Hnn ltac:(lia)) as (HT & Hws & Hs & _).
  pose proof (fallback_total_bound weights (2 ^ 40) Hlen Hsum H40 Hnn) as HTb.
  rewrite standardizeWeights_unfold by lia. cbn [returned].
  exact (apportion sortSort contract _ _ (conj HT HTb) Hws Hs).
Qed.

(** For weights that are not negative, as many as a slice can hold,
    whose sum fits an [int], the returned sequence sums to 100: the
    truncated percentages sum to less than 101 by their relative error,
    and fall short of 100 by no more than their number, by their
    absolute error when they are fewer than 100 and because none is
    negative otherwise. *)
Lemma standardizeWeights_sum (weights : list Z) :
  (2 <= length weights)%nat ->
  Forall (fun w => 0 <= w) weights ->
  Z.of_nat (length weights) <= GoInt.max_int -> zsum weights <= GoInt.max_int ->
  exists out,
    returned (standardizeWeights sortSort weights) = Some out /\
    zsum out = 100 /\ Forall (fun r => 0 <= r) out.
Proof.
  intros HN Hnn Hlen Hsum.
  assert (Hne : weights <> []) by (destruct weights; [cbn in HN; lia | congruence]).
  destruct (fallback_spec weights Hne Hnn Hsum) as (HT & Hws & Hs & _).
  pose proof (fallback_total_bound weights GoInt.max_int Hlen Hsum
                ltac:(lia) Hnn) as HTb.
  pose proof (fallback_length weights) as Hwl.
  rewrite standardizeWeights_unfold by lia. cbn [returned].
  set (ws := fst (fallback weights)) in *.
  set (total := snd (fallback weights)) in *.
  assert (HT63 : 0 < total < 2 ^ 63) by (unfold GoInt.max_int in HTb; lia).
  destruct (results_real_bounds total ws HT63 Hws) as (Hr0 & _ & Hr2).
  pose proof (results_relative_bound total ws HT63 Hws) as Hr1.
  destruct (firstLoop_length ws total) as [Hl1 Hl2].
  change (map (fun w => fst (percent total w)) ws)
    with (fst (firstLoop ws total)) in Hr0, Hr1, Hr2.
  assert (Hbounds : 100 - Z.of_nat (length (fst (firstLoop ws total)))
                    <= zsum (fst (firstLoop ws total)) <= 100).
  { pose proof (zsum_nonneg _ Hr0) as Hz.
    rewrite Hl1, Hs in *.
    assert (Hq : (IZR total / IZR total = 1)%R)
      by (unfold Rdiv; apply Rinv_r; apply not_0_IZR; lia).
    rewrite Hq in Hr1, Hr2.
    unfold delta in *. split.
    - destruct (Z.le_gt_cases 100 (Z.of_nat (length ws))) as [Hmany | Hfew];
        [lia|].
      assert (Hn : (0 <= IZR (Z.of_nat (length ws)) <= 100)%R)
        by (split; apply IZR_le; lia).
      assert (H : (IZR (100 - Z.of_nat (length ws) - 1)
                   < IZR (zsum (fst (firstLoop ws total))))%R).
      { rewrite !minus_IZR. lra. }
      apply lt_IZR in H. lia.
    - assert (H : (IZR (zsum (fst (firstLoop ws total))) < IZR 101)%R) by lra.
      apply lt_IZR in H. lia. }
  destruct (distribute_sum (argsort sortSort (snd (firstLoop ws total)))
              (fst (firstLoop ws total)))
    as (out & Hout & Hlen' & Hsum' & Hval).
  - rewrite Hl1, <- Hl2. now apply argsort_perm.
  - exact Hr0.
  - exact Hbounds.
  - exists out. split; [exact Hout|]. split; [exact Hsum'|].
    rewrite (list_as_map_nth out). apply Forall_forall. intros r Hr.
    apply in_map_iff in Hr. destruct Hr as (i & <- & Hi). apply in_seq in Hi.
    rewrite Hval by lia.
    assert (0 <= nth i (fst (firstLoop ws total)) 0).
    { rewrite Forall_forall in Hr0. apply Hr0. apply nth_In. lia. }
    destruct (taken i _); lia.
Qed.

(** The call never panics: the indices of [order] are those of
    [results]. *)
Lemma standardizeWeights_returns (weights : list Z) :
  exists out,
    returned (standardizeWeights sortSort weights) = Some out /\
    length out = length weights /\
    (length weights <> 1%nat ->
     forall i, (i < length weights)%nat ->
       let r := fst (percent (snd (fallback weights))
                       (nth i (fst (fallback weights)) 0)) in
       nth i out 0 = r \/ nth i out 0 = GoInt.add r 1).
Proof.
  destruct (Nat.eq_dec (length weights) 1) as [E | E].
  - destruct weights as [ | w [ | ? ?]]; cbn in E; try lia.
    exists [0]. split; [reflexivity|]. split; [reflexivity | contradiction].
  - rewrite standardizeWeights_unfold by assumption. cbn [returned].
    set (ws := fst (fallback weights)). set (total := snd (fallback weights)).
    destruct (firstLoop_length ws total) as [Hl1 Hl2].
    destruct (distribute_spec (argsort sortSort (snd (firstLoop ws total)))
                (GoInt.sub 100 (intSum (fst (firstLoop ws total))))
                (fst (firstLoop ws total)))
      as (out & Hout & Hlen & Hnth).
    + apply wrap_in_range.
    + now apply argsort_NoDup.
    + rewrite Hl1, <- Hl2. now apply argsort_bound.
    + exists out. split; [exact Hout|].
      assert (Hws : length ws = length weights) by apply fallback_length.
      split; [lia|]. intros _ i Hi. cbv zeta. rewrite Hnth.
      assert (Hr : nth i (fst (firstLoop ws total)) 0
                   = fst (percent total (nth i ws 0))).
      { cbn [firstLoop fst].
        apply (nth_map_lt (fun w => fst (percent total w)) ws i 0 0).
        lia. }
      rewrite Hr.
      destruct (taken i _); [right | left]; reflexivity.
Qed.

End Standardized.

(** * The claims on [standardizeWeights] *)

Lemma zsum_map_le_eq (g h : nat -> Z) (l : list nat) :
  (forall i, In i l -> g i <= h i) ->
  zsum (map g l) = zsum (map h l) ->
  forall i, In i l -> g i = h i.
Proof.
  induction l as [ | a l IH]; intros Hle Hs i Hi; [contradiction|].
  cbn [map] in Hs. rewrite !zsum_cons in Hs.
  assert (Ha : g a <= h a) by (apply Hle; now left).
  assert (Hl : zsum (map g l) <= zsum (map h l))
    by (apply zsum_map_le; intros; apply Hle; now right).
  destruct Hi as [<- | Hi]; [lia|].
  apply IH; [intros; apply Hle; now right | lia | assumption].
Qed.

Lemma intSum_zeros (n : nat) : intSum (repeat 0 n) = 0.
Proof.
  unfold intSum. induction n as [ | n IH]; [reflexivity|].
  cbn [repeat fold_left]. exact IH.
Qed.

Lemma zsum_repeat (c : Z) (n : nat) : zsum (repeat c n) = c * Z.of_nat n.
Proof.
  induction n as [ | n IH]; [cbn; lia|].
  cbn [repeat]. rewrite zsum_cons, IH. lia.
Qed.

Lemma map_ones (c : Z) (n : nat) : map (fun _ : Z => 1) (repeat c n) = repeat 1 n.
Proof.
  induction n as [ | n IH]; [reflexivity|]. cbn [repeat map]. now rewrite IH.
Qed.

Lemma fallback_zeros (n : nat) :
  fallback (repeat 0 n) = (repeat 1 n, Z.of_nat n).
Proof.
  unfold fallback. rewrite intSum_zeros, Z.eqb_refl, map_ones, repeat_length.
  reflexivity.
Qed.

Lemma fallback_ones (n : nat) :
  (0 < n)%nat -> Z.of_nat n <= GoInt.max_int ->
  fallback (repeat 1 n) = (repeat 1 n, Z.of_nat n).
Proof.
  intros Hn Hmax. unfold fallback.
  assert (Hs : intSum (repeat 1 n) = Z.of_nat n).
  { rewrite intSum_zsum.
    - rewrite zsum_repeat. lia.
    - apply Forall_forall. intros x Hx. apply repeat_spec in Hx. lia.
    - rewrite zsum_repeat. lia. }
  rewrite Hs. destruct (Z.eqb_spec (Z.of_nat n) 0); [lia | reflexivity].
Qed.

Lemma two_entries (out : list Z) :
  length out = 2%nat -> zsum out = 100 ->
  (forall i, (i < 2)%nat -> nth i out 0 = 50 \/ nth i out 0 = 50 + 1) ->
  out = [50; 50].
Proof.
  intros Hlen Hs Hv.
  destruct out as [ | a [ | b [ | ? ?]]]; cbn in Hlen; try lia.
  pose proof (Hv 0%nat ltac:(lia)) as Ha. pose proof (Hv 1%nat ltac:(lia)) as Hb.
  cbn [nth] in Ha, Hb. rewrite !zsum_cons in Hs. change (zsum []) with 0 in Hs.
  f_equal; [lia | f_equal; lia].
Qed.

Lemma three_entries (out : list Z) :
  length out = 3%nat -> zsum out = 100 ->
  (forall i, (i < 3)%nat -> nth i out 0 = 33 \/ nth i out 0 = 33 + 1) ->
  Permutation out [34; 33; 33].
Proof.
  intros Hlen Hs Hv.
  destruct out as [ | a [ | b [ | c [ | ? ?]]]]; cbn in Hlen; try lia.
  pose proof (Hv 0%nat ltac:(lia)) as Ha. pose proof (Hv 1%nat ltac:(lia)) as Hb.
  pose proof (Hv 2%nat ltac:(lia)) as Hc.
  cbn [nth] in Ha, Hb, Hc. rewrite !zsum_cons in Hs. change (zsum []) with 0 in Hs.
  assert (H : (a = 34 /\ b = 33 /\ c = 33) \/ (a = 33 /\ b = 34 /\ c = 33) \/
              (a = 33 /\ b = 33 /\ c = 34)) by lia.
  destruct H as [(-> & -> & ->) | [(-> & -> & ->) | (-> & -> & ->)]].
  - reflexivity.
  - apply perm_swap.
  - apply perm_trans with [33; 34; 33]; [apply perm_skip, perm_swap | apply perm_swap].
Qed.

(** C1 (as amended).  For at least two weights, none negative, whose sum
    fits an [int] (does not exceed [2^63 - 1]), the sequence returned by
    [standardizeWeights] sums to exactly 100, as [intSum] computes it.
    The number of the weights is that of a slice, which fits an [int];
    it is not bounded otherwise. *)
Theorem standardizeWeights_sums_to_100
    (sortSort : argSlice -> argSlice) (weights : list Z) :
  sortContract sortSort ->
  (2 <= length weights)%nat ->
  Forall (fun w => 0 <= w) weights ->
  Z.of_nat (length weights) <= GoInt.max_int ->
  zsum weights <= GoInt.max_int ->
  exists out,
    returned (standardizeWeights sortSort weights) = Some out /\
    intSum out = 100.
Proof.
  intros contract HN Hnn Hlen Hsum.
  destruct (standardizeWeights_sum sortSort contract weights HN Hnn Hlen Hsum)
    as (out & Hout & Hs & Hpos).
  exists out. split; [exact Hout|].
  rewrite intSum_zsum; [exact Hs | exact Hpos | rewrite Hs; unfold GoInt.max_int; lia].
Qed.

Lemma standardizeWeights_sums_to_100_witness :
  exists out,
    returned (standardizeWeights insertionSortReverse [1; 1; 1]) = Some out /\
    intSum out = 100.
Proof.
  apply (standardizeWeights_sums_to_100 insertionSortReverse [1; 1; 1]).
  - exact insertionSortReverse_contract.
  - cbn. lia.
  - repeat constructor; lia.
  - unfold GoInt.max_int. cbn. lia.
  - unfold GoInt.max_int. cbn. lia.
Defined.

(** C1, as stated, fails where the sum of the weights overflows [int]:
    two weights of [2^62] sum to [-2^63], both percentages are [-50], and
    the two units the second loop can hand out leave [-49] and [-49]. *)
Lemma standardizeWeights_sum_overflows :
  (2 <= length [2 ^ 62; 2 ^ 62])%nat /\
  Forall (fun w => 0 <= w <= GoInt.max_int) [2 ^ 62; 2 ^ 62] /\
  returned (standardizeWeights insertionSortReverse [2 ^ 62; 2 ^ 62])
    = Some [-49; -49] /\
  intSum [-49; -49] <> 100.
Proof.
  split; [cbn; lia|]. split; [repeat constructor; cbn; lia|].
  split; [vm_compute; reflexivity | vm_compute; discriminate].
Qed.

(** C2 (as amended).  For at least two weights, none negative, at most
    [2^40] of them and summing to at most [2^40], with [ws] and [total]
    the weights and their sum after the all-zero fallback: the truncated
    percentage the code computes in binary64 is the floor of the exact
    percentage [100 * w / total], or one below it when the exact percentage
    is an integer; the returned sequence is the largest-remainder
    apportionment: every entry is the floor of its exact percentage or one
    more, the entries sum to 100, and an entry that received the extra unit
    has an exact remainder no smaller than one that did not. *)
Theorem standardizeWeights_largest_remainder
    (sortSort : argSlice -> argSlice) (weights ws : list Z) (total : Z) :
  sortContract sortSort ->
  (2 <= length weights)%nat ->
  Forall (fun w => 0 <= w) weights ->
  Z.of_nat (length weights) <= 2 ^ 40 ->
  zsum weights <= 2 ^ 40 ->
  fallback weights = (ws, total) ->
  (forall i, (i < length ws)%nat ->
     nth i (fst (firstLoop ws total)) 0 = exactFloor total (nth i ws 0) \/
     (exactRemainder total (nth i ws 0) = 0 /\
      nth i (fst (firstLoop ws total)) 0 = exactFloor total (nth i ws 0) - 1)) /\
  exists out,
    returned (standardizeWeights sortSort weights) = Some out /\
    largestRemainder total ws out.
Proof.
  intros contract HN Hnn Hlen Hsum Hfb.
  assert (Hne : weights <> []) by (destruct weights; [cbn in HN; lia | congruence]).
  assert (H40 : 2 ^ 40 <= GoInt.max_int) by (unfold GoInt.max_int; cbn; lia).
  pose proof (fallback_spec weights Hne Hnn ltac:(lia)) as Hspec.
  pose proof (fallback_total_bound weights (2 ^ 40) Hlen Hsum H40 Hnn) as HTb.
  pose proof (standardizeWeights_apportion sortSort contract weights HN Hnn Hlen Hsum)
    as Happ.
  rewrite Hfb in Hspec, Happ, HTb. cbn [fst snd] in Hspec, Happ, HTb.
  destruct Hspec as (HT0 & Hws & _).
  assert (HT : 0 < total <= 2 ^ 40) by lia.
  split; [|exact Happ].
  intros i Hi.
  assert (Hw : 0 <= nth i ws 0 <= total).
  { rewrite Forall_forall in Hws. apply Hws. now apply nth_In. }
  assert (Hr : nth i (fst (firstLoop ws total)) 0 = fst (percent total (nth i ws 0))).
  { cbn [firstLoop fst].
    exact (nth_map_lt (fun w => fst (percent total w)) ws i 0 0 Hi). }
  rewrite Hr.
  destruct (percent_cases total (nth i ws 0) Hw HT) as (_ & _ & [[E _] | (E1 & E2 & _)]);
    [left; exact E | right; split; assumption].
Qed.

Lemma standardizeWeights_largest_remainder_witness :
  (forall i, (i < length [1; 2])%nat ->
     nth i (fst (firstLoop [1; 2] 3)) 0 = exactFloor 3 (nth i [1; 2] 0) \/
     (exactRemainder 3 (nth i [1; 2] 0) = 0 /\
      nth i (fst (firstLoop [1; 2] 3)) 0 = exactFloor 3 (nth i [1; 2] 0) - 1)) /\
  exists out,
    returned (standardizeWeights insertionSortReverse [1; 2]) = Some out /\
    largestRemainder 3 [1; 2] out.
Proof.
  apply (standardizeWeights_largest_remainder insertionSortReverse [1; 2] [1; 2] 3).
  - exact insertionSortReverse_contract.
  - cbn. lia.
  - repeat constructor; lia.
  - cbn. lia.
  - cbn. lia.
  - reflexivity.
Defined.

(** C2, as stated, fails twice.  On the truncated percentages: for the
    weights 29 and 71 the total is 100 and the exact percentage of the
    first is 29, but [29/100*100] is [28.999999999999996] in binary64 and
    the code truncates it to 28.  On the extra units, for large weights:
    [2^60] and [2^60 + 1] are the same binary64 number, so of the weights
    [2^60, 2^60 + 1, 2^60] all three remainders are equal in binary64 and
    the insertion sort, which [sort.Sort] runs on three elements, leaves the
    indices in place: the one extra unit goes to the first entry, although
    the exact remainder of the second is larger. *)
Lemma standardizeWeights_truncates_below_floor :
  (fallback [29; 71] = ([29; 71], 100) /\
   nth 0 (fst (firstLoop [29; 71] 100)) 0 = 28 /\
   exactFloor 100 (nth 0 [29; 71] 0) = 29) /\
  (fallback [2 ^ 60; 2 ^ 60 + 1; 2 ^ 60]
     = ([2 ^ 60; 2 ^ 60 + 1; 2 ^ 60], 3 * 2 ^ 60 + 1) /\
   returned (standardizeWeights insertionSortReverse [2 ^ 60; 2 ^ 60 + 1; 2 ^ 60])
     = Some [34; 33; 33] /\
   map (exactFloor (3 * 2 ^ 60 + 1)) [2 ^ 60; 2 ^ 60 + 1; 2 ^ 60] = [33; 33; 33] /\
   exactRemainder (3 * 2 ^ 60 + 1) (2 ^ 60)
     < exactRemainder (3 * 2 ^ 60 + 1) (2 ^ 60 + 1)).
Proof. vm_compute. repeat split. Qed.

(** C3.  For a single weight, whatever its value, [standardizeWeights]
    returns the one-element sequence [0]. *)
Theorem standardizeWeights_single_destination
    (sortSort : argSlice -> argSlice) (w : Z) :
  returned (standardizeWeights sortSort [w]) = Some [0].
Proof. reflexivity. Qed.

(** C4.  On [n >= 2] weights that are all zero, [standardizeWeights]
    overwrites them with ones and returns what it returns on [n] ones; on
    two zeros that is [50, 50], on three a permutation of [34, 33, 33], and
    up to [2^40] zeros an even split: entries [100 / n] or one more that
    sum to 100. *)
Theorem standardizeWeights_all_zero
    (sortSort : argSlice -> argSlice) (n : nat) :
  sortContract sortSort ->
  (2 <= n)%nat -> Z.of_nat n <= GoInt.max_int ->
  standardizeWeights sortSort (repeat 0 n)
    = standardizeWeights sortSort (repeat 1 n) /\
  callerSlice (standardizeWeights sortSort (repeat 0 n)) = repeat 1 n /\
  returned (standardizeWeights sortSort [0; 0]) = Some [50; 50] /\
  (exists out,
     returned (standardizeWeights sortSort [0; 0; 0]) = Some out /\
     Permutation out [34; 33; 33]) /\
  (Z.of_nat n <= 2 ^ 40 ->
   exists out,
     returned (standardizeWeights sortSort (repeat 0 n)) = Some out /\
     zsum out = 100 /\
     Forall (fun r => r = 100 / Z.of_nat n \/ r = 100 / Z.of_nat n + 1) out).
Proof.
  intros contract Hn Hmax.
  assert (Heq : standardizeWeights sortSort (repeat 0 n)
                = standardizeWeights sortSort (repeat 1 n)).
  { rewrite !standardizeWeights_unfold by (rewrite repeat_length; lia).
    rewrite fallback_zeros, fallback_ones by lia. reflexivity. }
  split; [exact Heq|]. split.
  - rewrite standardizeWeights_unfold by (rewrite repeat_length; lia).
    rewrite fallback_zeros. reflexivity.
  - split; [|split].
    + destruct (standardizeWeights_apportion sortSort contract [0; 0])
        as (out & Hout & Hlen & Hs & Hv & _);
        [cbn; lia | repeat constructor; lia | cbn; lia | cbn; lia | ].
      rewrite Hout. f_equal.
      change (fallback [0; 0]) with ([1; 1], 2) in Hlen, Hs, Hv.
      cbn [fst snd length] in Hlen, Hv.
      apply two_entries; [exact Hlen | exact Hs | ].
      intros i Hi. specialize (Hv i Hi).
      destruct i as [ | [ | i]]; [exact Hv | exact Hv | lia].
    + destruct (standardizeWeights_apportion sortSort contract [0; 0; 0])
        as (out & Hout & Hlen & Hs & Hv & _);
        [cbn; lia | repeat constructor; lia | cbn; lia | cbn; lia | ].
      exists out. split; [exact Hout|].
      change (fallback [0; 0; 0]) with ([1; 1; 1], 3) in Hlen, Hs, Hv.
      cbn [fst snd length] in Hlen, Hv.
      apply three_entries; [exact Hlen | exact Hs | ].
      intros i Hi. specialize (Hv i Hi).
      destruct i as [ | [ | [ | i]]]; [exact Hv | exact Hv | exact Hv | lia].
    + intros Hn40.
      destruct (standardizeWeights_apportion sortSort contract (repeat 0 n))
        as (out & Hout & Hlen & Hs & Hv & _).
      * rewrite repeat_length. exact Hn.
      * apply Forall_forall. intros x Hx. apply repeat_spec in Hx. lia.
      * rewrite repeat_length. exact Hn40.
      * rewrite zsum_repeat. lia.
      * exists out. split; [exact Hout|]. split; [exact Hs|].
        rewrite fallback_zeros in Hlen, Hv. cbn [fst snd] in Hlen, Hv.
        rewrite repeat_length in Hlen, Hv.
        rewrite (list_as_map_nth out), Hlen. apply Forall_forall. intros r Hr.
        apply in_map_iff in Hr. destruct Hr as (i & <- & Hi). apply in_seq in Hi.
        specialize (Hv i ltac:(lia)).
        assert (Hone : nth i (repeat 1 n) 0 = 1).
        { apply (repeat_spec n 1). apply nth_In. rewrite repeat_length. lia. }
        rewrite Hone in Hv. unfold exactFloor in Hv.
        rewrite Z.mul_1_l in Hv. exact Hv.
Qed.

Lemma standardizeWeights_all_zero_witness :
  standardizeWeights insertionSortReverse (repeat 0 4)
    = standardizeWeights insertionSortReverse (repeat 1 4) /\
  callerSlice (standardizeWeights insertionSortReverse (repeat 0 4)) = repeat 1 4 /\
  returned (standardizeWeights insertionSortReverse [0; 0]) = Some [50; 50] /\
  (exists out,
     returned (standardizeWeights insertionSortReverse [0; 0; 0]) = Some out /\
     Permutation out [34; 33; 33]) /\
  (Z.of_nat 4 <= 2 ^ 40 ->
   exists out,
     returned (standardizeWeights insertionSortReverse (repeat 0 4)) = Some out /\
     zsum out = 100 /\
     Forall (fun r => r = 100 / Z.of_nat 4 \/ r = 100 / Z.of_nat 4 + 1) out).
Proof.
  apply (standardizeWeights_all_zero insertionSortReverse 4).
  - exact insertionSortReverse_contract.
  - lia.
  - unfold GoInt.max_int. cbn. lia.
Defined.

(** C5.  At least two weights, none negative, that already sum to 100
    come back unchanged, and the caller's sequence is left as it was; in
    particular [20, 80] gives [20, 80]. *)
Theorem standardizeWeights_idempotent
    (sortSort : argSlice -> argSlice) (weights : list Z) :
  sortContract sortSort ->
  (2 <= length weights)%nat ->
  Forall (fun w => 0 <= w) weights ->
  zsum weights = 100 ->
  standardizeWeights sortSort weights = mkOutcome weights (Some weights) /\
  returned (standardizeWeights sortSort [20; 80]) = Some [20; 80].
Proof.
  intros contract.
  assert (Hmain : forall ws, (2 <= length ws)%nat ->
            Forall (fun w => 0 <= w) ws -> zsum ws = 100 ->
            standardizeWeights sortSort ws = mkOutcome ws (Some ws)).
  { intros ws HN Hnn Hsum.
    assert (Hfb : fallback ws = (ws, 100)).
    { unfold fallback. rewrite intSum_zsum;
        [rewrite Hsum; reflexivity | exact Hnn | rewrite Hsum; unfold GoInt.max_int; lia]. }
    rewrite standardizeWeights_unfold by lia. rewrite Hfb. cbn [fst snd].
    destruct (apportion sortSort contract ws 100) as (out & Hout & Hlen & Hs & Hv & _).
    - cbn. lia.
    - rewrite <- Hsum. now apply zsum_bound.
    - exact Hsum.
    - rewrite Hout. f_equal. f_equal.
      assert (Hfl : forall w, exactFloor 100 w = w)
        by (intros w; unfold exactFloor; apply Z.div_mul; lia).
      rewrite (list_as_map_nth out), (list_as_map_nth ws) at 1. rewrite Hlen.
      apply map_ext_in. intros i Hi. symmetry.
      apply (zsum_map_le_eq (fun i => nth i ws 0) (fun i => nth i out 0) (seq 0 (length ws))).
      + intros j Hj. apply in_seq in Hj.
        destruct (Hv j ltac:(lia)) as [E | E]; rewrite E, Hfl; lia.
      + rewrite <- zsum_seq. rewrite <- Hlen, <- zsum_seq. lia.
      + exact Hi. }
  intros HN Hnn Hsum. split; [now apply Hmain|].
  rewrite Hmain; [reflexivity | cbn; lia | repeat constructor; lia | reflexivity].
Qed.

Lemma standardizeWeights_idempotent_witness :
  standardizeWeights insertionSortReverse [29; 57; 14]
    = mkOutcome [29; 57; 14] (Some [29; 57; 14]) /\
  returned (standardizeWeights insertionSortReverse [20; 80]) = Some [20; 80].
Proof.
  apply (standardizeWeights_idempotent insertionSortReverse [29; 57; 14]).
  - exact insertionSortReverse_contract.
  - cbn. lia.
  - repeat constructor; lia.
  - reflexivity.
Defined.

(** C6.  The returned sequence has the length of the input, and its entry
    at an index is the truncated percentage of the weight at that index
    (as it stands after the all-zero fallback), or that plus one: no entry
    is moved, inserted or dropped. *)
Theorem standardizeWeights_preserves_order
    (sortSort : argSlice -> argSlice) (weights : list Z) :
  sortContract sortSort ->
  exists out,
    returned (standardizeWeights sortSort weights) = Some out /\
    length out = length weights /\
    (length weights <> 1%nat ->
     forall i, (i < length weights)%nat ->
       nth i out 0
         = fst (percent (snd (fallback weights)) (nth i (fst (fallback weights)) 0)) \/
       nth i out 0
         = GoInt.add
             (fst (percent (snd (fallback weights)) (nth i (fst (fallback weights)) 0)))
             1).
Proof.
  intros contract. exact (standardizeWeights_returns sortSort contract weights).
Qed.

Lemma standardizeWeights_preserves_order_witness :
  exists out,
    returned (standardizeWeights insertionSortReverse [3; 1; 2]) = Some out /\
    length out = length [3; 1; 2] /\
    (length [3; 1; 2] <> 1%nat ->
     forall i, (i < length [3; 1; 2])%nat ->
       nth i out 0
         = fst (percent (snd (fallback [3; 1; 2])) (nth i (fst (fallback [3; 1; 2])) 0)) \/
       nth i out 0
         = GoInt.add
             (fst (percent (snd (fallback [3; 1; 2])) (nth i (fst (fallback [3; 1; 2])) 0)))
             1).
Proof.
  apply (standardizeWeights_preserves_order insertionSortReverse [3; 1; 2]).
  exact insertionSortReverse_contract.
Defined.

(** C7 (as amended).  [standardizeWeights] leaves the caller's sequence as
    it was, except when there is not exactly one weight and the weights sum
    to zero: then every entry of the caller's sequence is overwritten with
    1. *)
Theorem standardizeWeights_caller_slice
    (sortSort : argSlice -> argSlice) (weights : list Z) :
  callerSlice (standardizeWeights sortSort weights) =
  if (length weights =? 1)%nat then weights
  else if intSum weights =? 0 then map (fun _ => 1) weights
  else weights.
Proof.
  unfold standardizeWeights, fallback.
  destruct (length weights =? 1)%nat; [reflexivity|].
  destruct (intSum weights =? 0); reflexivity.
Qed.

(** C7, as stated, fails on two zero weights: the call overwrites both
    entries of the caller's sequence with 1. *)
Lemma standardizeWeights_overwrites_caller_slice :
  callerSlice (standardizeWeights insertionSortReverse [0; 0]) = [1; 1] /\
  callerSlice (standardizeWeights insertionSortReverse [0; 0]) <> [0; 0].
Proof. split; [reflexivity | discriminate]. Qed.

(** C8.  [standardizeWeights] returns on every input: no index of the
    second loop is out of range, and wherever the first loop runs its
    divisor is not zero, a zero sum having been replaced by the length. *)
Theorem standardizeWeights_never_panics
    (sortSort : argSlice -> argSlice) (weights : list Z) :
  sortContract sortSort ->
  (exists out, returned (standardizeWeights sortSort weights) = Some out) /\
  (weights <> [] -> snd (fallback weights) <> 0).
Proof.
  intros contract. split.
  - destruct (standardizeWeights_returns sortSort contract weights) as (out & H & _).
    now exists out.
  - intros Hne. unfold fallback.
    destruct (Z.eqb_spec (intSum weights) 0) as [E | E]; cbn [snd]; [|exact E].
    destruct weights; [congruence | cbn [length]; lia].
Qed.

Lemma standardizeWeights_never_panics_witness :
  (exists out,
     returned (standardizeWeights insertionSortReverse [0; 5; 0; 7]) = Some out) /\
  ([0; 5; 0; 7] <> [] -> snd (fallback [0; 5; 0; 7]) <> 0).
Proof.
  apply (standardizeWeights_never_panics insertionSortReverse [0; 5; 0; 7]).
  exact insertionSortReverse_contract.
Defined.

(** * The claims on the callers *)

(** ** The callers *)

Lemma weightOf_zero (b : BackendRef) : (weightOf b =? 0) = zeroWeight b.
Proof. unfold weightOf, zeroWeight. destruct (Weight b); reflexivity. Qed.

Lemma selectTCP_acc (forwardTo action : list BackendRef) (weights : list Z) :
  fold_left
    (fun '(action, weights) w =>
       let wt := weightOf w in
       if wt =? 0 then (action, weights)
       else (action ++ [w], weights ++ [wt]))
    forwardTo (action, weights)
  = (action ++ filter (fun b => negb (zeroWeight b)) forwardTo,
     weights ++ map weightOf (filter (fun b => negb (zeroWeight b)) forwardTo)).
Proof.
  revert action weights.
  induction forwardTo as [ | w l IH]; intros action weights; cbn [fold_left filter].
  - cbn [map]. now rewrite !app_nil_r.
  - cbv zeta. rewrite weightOf_zero.
    destruct (zeroWeight w); cbn [negb]; rewrite IH; [reflexivity|].
    cbn [map]. now rewrite <- !app_assoc.
Qed.

Lemma selectTCP_spec (forwardTo : list BackendRef) :
  selectTCP forwardTo
  = (filter (fun b => negb (zeroWeight b)) forwardTo,
     map weightOf (filter (fun b => negb (zeroWeight b)) forwardTo)).
Proof. unfold selectTCP. now rewrite selectTCP_acc. Qed.

Section CallerFacts.

Variable sortSort : argSlice -> argSlice.
Variables serviceKind serviceEntryGroup : string.
Variable quoted : string -> string.
Context {HTTPRequestHeaderFilter Headers HTTPRouteMatch HTTPMatchRequest : Type}.
Variable createHeadersFilter : option HTTPRequestHeaderFilter -> option Headers.
Variable createMatch : HTTPRouteMatch -> result HTTPMatchRequest.

Local Abbreviation HBackend := (@HTTPBackendRef HTTPRequestHeaderFilter).
Local Abbreviation HFilter := (@HTTPRouteFilter HTTPRequestHeaderFilter).
Local Abbreviation Rule := (@HTTPRouteRule HTTPRequestHeaderFilter HTTPRouteMatch).
Local Abbreviation VRoute := (@HTTPRoute Headers HTTPMatchRequest).

Lemma selectHTTP_acc (forwardTo action : list HBackend) (weights : list Z)
    (totalZero : bool) :
  fold_left
    (fun '(action, weights) w =>
       let wt := weightOf (BackendRefOf w) in
       if (wt =? 0) && negb totalZero then (action, weights)
       else (action ++ [w], weights ++ [wt]))
    forwardTo (action, weights)
  = (action ++ keptHTTP forwardTo totalZero,
     weights ++ map (fun b => weightOf (BackendRefOf b))
                  (keptHTTP forwardTo totalZero)).
Proof.
  revert action weights.
  induction forwardTo as [ | w l IH]; intros action weights; cbn [fold_left].
  - unfold keptHTTP. destruct totalZero; cbn [filter map]; now rewrite !app_nil_r.
  - cbv beta iota zeta. rewrite weightOf_zero. unfold keptHTTP in *.
    destruct totalZero; cbn [negb andb filter].
    + rewrite andb_false_r, IH. cbn [map]. now rewrite <- !app_assoc.
    + rewrite andb_true_r.
      destruct (zeroWeight (BackendRefOf w)); cbn [negb]; rewrite IH; [reflexivity|].
      cbn [map]. now rewrite <- !app_assoc.
Qed.

Lemma selectHTTP_spec (forwardTo : list HBackend) (totalZero : bool) :
  selectHTTP forwardTo totalZero
  = (keptHTTP forwardTo totalZero,
     map (fun b => weightOf (BackendRefOf b)) (keptHTTP forwardTo totalZero)).
Proof. unfold selectHTTP. now rewrite selectHTTP_acc. Qed.

Lemma tcpDestinations_backends (ns domain : string) (weights : list Z)
    (action : list BackendRef) (i : nat) (res : list RouteDestination) :
  tcpDestinations serviceKind serviceEntryGroup quoted ns domain weights action i
    = Ok res ->
  Forall2
    (fun b d => buildDestination serviceKind serviceEntryGroup quoted b ns domain
                = Ok (tcpDestination d))
    action res.
Proof.
  revert i res. induction action as [ | fwd rest IH]; intros i res H;
    cbn [tcpDestinations] in H.
  - inversion H. constructor.
  - destruct (buildDestination serviceKind serviceEntryGroup quoted fwd ns domain)
      as [dst | | ] eqn:Hd; cbn [bind] in H; try discriminate.
    destruct (index weights i) as [w | | ]; cbn [bind] in H; try discriminate.
    destruct (tcpDestinations serviceKind serviceEntryGroup quoted ns domain
                weights rest (S i)) as [res' | | ] eqn:Hr;
      cbn [bind] in H; try discriminate.
    inversion H; subst res. constructor; [exact Hd | now apply (IH (S i))].
Qed.

Lemma httpDestinations_backends (ns domain : string) (weights : list Z)
    (action : list HBackend) (i : nat)
    (res : list (@HTTPRouteDestination Headers)) :
  httpDestinations serviceKind serviceEntryGroup quoted createHeadersFilter
    ns domain weights action i = Ok res ->
  Forall2
    (fun b d => buildDestination serviceKind serviceEntryGroup quoted
                  (BackendRefOf b) ns domain
                = Ok (httpDestination d))
    action res.
Proof.
  revert i res. induction action as [ | fwd rest IH]; intros i res H;
    cbn [httpDestinations] in H.
  - inversion H. constructor.
  - destruct (buildDestination serviceKind serviceEntryGroup quoted
                (BackendRefOf fwd) ns domain)
      as [dst | | ] eqn:Hd; cbn [bind] in H; try discriminate.
    destruct (index weights i) as [w | | ]; cbn [bind] in H; try discriminate.
    destruct (destinationFilters quoted createHeadersFilter (Filters fwd) None)
      as [hd | | ]; cbn [bind] in H; try discriminate.
    destruct (httpDestinations serviceKind serviceEntryGroup quoted
                createHeadersFilter ns domain weights rest (S i))
      as [res' | | ] eqn:Hr; cbn [bind] in H; try discriminate.
    inversion H; subst res. constructor; [exact Hd | now apply (IH (S i))].
Qed.


Lemma allZero_spec (refs : list HBackend) :
  allZero refs = true <->
  Forall (fun b => Weight (BackendRefOf b) = Some 0) refs.
Proof.
  unfold allZero. rewrite forallb_forall, Forall_forall.
  split; intros H b Hb; specialize (H b Hb).
  - destruct (Weight (BackendRefOf b)) as [v | ]; [|discriminate].
    apply Z.eqb_eq in H. now subst.
  - now rewrite H.
Qed.

(** The destinations [buildHTTPDestination] returns are built from the
    backends its first loop keeps, one for each in their order. *)
Lemma buildHTTPDestination_backends (forwardTo : option (list HBackend))
    (ns domain : string) (totalZero : bool)
    (res : list (@HTTPRouteDestination Headers)) :
  buildHTTPDestination sortSort serviceKind serviceEntryGroup quoted
    createHeadersFilter forwardTo ns domain totalZero = Ok res ->
  Forall2
    (fun b d => buildDestination serviceKind serviceEntryGroup quoted
                  (BackendRefOf b) ns domain
                = Ok (httpDestination d))
    (keptHTTP (refsOf forwardTo) totalZero) res.
Proof.
  intros H. destruct forwardTo as [l | ]; cbn [refsOf buildHTTPDestination] in *.
  - rewrite selectHTTP_spec in H.
    destruct (standardized sortSort
                (map (fun b => weightOf (BackendRefOf b)) (keptHTTP l totalZero)))
      as [ws | | ]; cbn [bind] in H; try discriminate.
    now apply httpDestinations_backends in H.
  - inversion H. unfold keptHTTP. destruct totalZero; constructor.
Qed.

(** The rule loop hands [buildHTTPDestination] the backends of the rule
    with its own [zero] as [totalZero], and what comes back is the
    [Route] of the rule. *)
Lemma convertRule_route (r : Rule) (ns domain : string) (vs : VRoute) :
  convertRule sortSort serviceKind serviceEntryGroup quoted
    createHeadersFilter createMatch r ns domain = Ok vs ->
  buildHTTPDestination sortSort serviceKind serviceEntryGroup quoted
    createHeadersFilter (BackendRefs r) ns domain
    (allZero (refsOf (BackendRefs r))) = Ok (Route vs).
Proof.
  intros Hc. unfold convertRule in Hc.
  destruct (convertMatches createMatch (Matches r)) as [matches | | ];
    cbn [bind] in Hc; try discriminate.
  destruct (routeFilters serviceKind serviceEntryGroup quoted createHeadersFilter
              ns domain (RuleFilters r) _) as [vs0 | | ];
    cbn [bind] in Hc; try discriminate.
  destruct (buildHTTPDestination _ _ _ _ _ _ _ _ _) as [route | | ];
    cbn [bind] in Hc; try discriminate.
  inversion Hc. reflexivity.
Qed.

(** C9.  Both callers drop, before the weights are standardized, every
    backend whose [Weight] is present and 0, and build their destinations
    from the backends kept, one destination for each in their order;
    [buildHTTPDestination] keeps them all when [totalZero] is set, which
    the rule loop does exactly when every backend of the rule has a weight
    that is present and 0.  So the [Route] of a rule the loop converts is
    what [buildHTTPDestination] returns for the [zero] of the rule: it
    has one destination for every backend of the rule, in their order,
    when each of them has a weight that is present and 0, and one for
    every backend whose weight is not a present 0 otherwise. *)
Theorem zero_weight_backends_excluded
    (forwardTo : list BackendRef) (httpForwardTo : list HBackend)
    (totalZero : bool) (ns domain : string) :
  (buildTCPDestination sortSort serviceKind serviceEntryGroup quoted
     (Some forwardTo) ns domain
   = (weights <- standardized sortSort
                   (map weightOf (filter (fun b => negb (zeroWeight b)) forwardTo)) ;;
      tcpDestinations serviceKind serviceEntryGroup quoted ns domain weights
        (filter (fun b => negb (zeroWeight b)) forwardTo) 0)) /\
  (buildHTTPDestination sortSort serviceKind serviceEntryGroup quoted
     createHeadersFilter (Some httpForwardTo) ns domain totalZero
   = (weights <- standardized sortSort
                   (map (fun b => weightOf (BackendRefOf b))
                      (keptHTTP httpForwardTo totalZero)) ;;
      httpDestinations serviceKind serviceEntryGroup quoted createHeadersFilter
        ns domain weights (keptHTTP httpForwardTo totalZero) 0)) /\
  keptHTTP httpForwardTo totalZero
  = (if totalZero then httpForwardTo
     else filter (fun b => negb (zeroWeight (BackendRefOf b))) httpForwardTo) /\
  allZero httpForwardTo
  = forallb (fun b => zeroWeight (BackendRefOf b)) httpForwardTo /\
  (forall res,
     buildTCPDestination sortSort serviceKind serviceEntryGroup quoted
       (Some forwardTo) ns domain = Ok res ->
     Forall2
       (fun b d => buildDestination serviceKind serviceEntryGroup quoted b ns domain
                   = Ok (tcpDestination d))
       (filter (fun b => negb (zeroWeight b)) forwardTo) res) /\
  (forall res,
     buildHTTPDestination sortSort serviceKind serviceEntryGroup quoted
       createHeadersFilter (Some httpForwardTo) ns domain totalZero = Ok res ->
     Forall2
       (fun b d => buildDestination serviceKind serviceEntryGroup quoted
                     (BackendRefOf b) ns domain
                   = Ok (httpDestination d))
       (keptHTTP httpForwardTo totalZero) res) /\
  (forall (r : Rule) (vs : VRoute),
     convertRule sortSort serviceKind serviceEntryGroup quoted
       createHeadersFilter createMatch r ns domain = Ok vs ->
     buildHTTPDestination sortSort serviceKind serviceEntryGroup quoted
       createHeadersFilter (BackendRefs r) ns domain
       (allZero (refsOf (BackendRefs r))) = Ok (Route vs) /\
     (Forall (fun b => Weight (BackendRefOf b) = Some 0) (refsOf (BackendRefs r)) ->
      Forall2
        (fun b d => buildDestination serviceKind serviceEntryGroup quoted
                      (BackendRefOf b) ns domain
                    = Ok (httpDestination d))
        (refsOf (BackendRefs r)) (Route vs)) /\
     (~ Forall (fun b => Weight (BackendRefOf b) = Some 0)
          (refsOf (BackendRefs r)) ->
      Forall2
        (fun b d => buildDestination serviceKind serviceEntryGroup quoted
                      (BackendRefOf b) ns domain
                    = Ok (httpDestination d))
        (filter (fun b => negb (zeroWeight (BackendRefOf b)))
           (refsOf (BackendRefs r)))
        (Route vs))).
Proof.
  assert (Htcp : buildTCPDestination sortSort serviceKind serviceEntryGroup quoted
            (Some forwardTo) ns domain
          = (weights <- standardized sortSort
                 (map weightOf (filter (fun b => negb (zeroWeight b)) forwardTo)) ;;
             tcpDestinations serviceKind serviceEntryGroup quoted ns domain weights
               (filter (fun b => negb (zeroWeight b)) forwardTo) 0))
    by (unfold buildTCPDestination; now rewrite selectTCP_spec).
  assert (Hhttp : buildHTTPDestination sortSort serviceKind serviceEntryGroup quoted
            createHeadersFilter (Some httpForwardTo) ns domain totalZero
          = (weights <- standardized sortSort
                 (map (fun b => weightOf (BackendRefOf b))
                    (keptHTTP httpForwardTo totalZero)) ;;
             httpDestinations serviceKind serviceEntryGroup quoted
               createHeadersFilter ns domain weights
               (keptHTTP httpForwardTo totalZero) 0))
    by (unfold buildHTTPDestination; now rewrite selectHTTP_spec).
  split; [exact Htcp|]. split; [exact Hhttp|].
  split; [reflexivity|]. split; [reflexivity|]. split; [|split].
  - intros res H. rewrite Htcp in H.
    destruct (standardized sortSort _) as [ws | | ]; cbn [bind] in H;
      try discriminate.
    now apply tcpDestinations_backends in H.
  - intros res H. rewrite Hhttp in H.
    destruct (standardized sortSort
                (map (fun b => weightOf (BackendRefOf b))
                   (keptHTTP httpForwardTo totalZero))) as [ws | | ];
      cbn [bind] in H; try discriminate.
    now apply httpDestinations_backends in H.
  - intros r vs Hc. apply convertRule_route in Hc.
    split; [exact Hc|].
    apply buildHTTPDestination_backends in Hc.
    pose proof (allZero_spec (refsOf (BackendRefs r))) as Hz.
    unfold keptHTTP in Hc.
    destruct (allZero (refsOf (BackendRefs r))).
    + split; [intros _; exact Hc|]. intros Hn. exfalso. apply Hn, Hz. reflexivity.
    + split; [|intros _; exact Hc]. intros Ha. apply Hz in Ha. discriminate.
Qed.


End CallerFacts.

Lemma zero_weight_backends_excluded_witness :
  Forall2
    (fun (b : @HTTPBackendRef unit) (d : @HTTPRouteDestination unit) =>
       buildDestination "Service" "networking.istio.io" (fun s => s)
         (BackendRefOf b) "default" "cluster.local"
       = Ok (httpDestination d))
    [mkHTTPBackendRef (mkBackendRef None None "reviews" None (Some 9080) (Some 0)) [];
     mkHTTPBackendRef (mkBackendRef None None "ratings" None (Some 9080) (Some 0)) []]
    [mkHTTPRouteDestination
       (mkDestination "reviews.default.svc.cluster.local" 9080) 50 None;
     mkHTTPRouteDestination
       (mkDestination "ratings.default.svc.cluster.local" 9080) 50 None] /\
  Forall2
    (fun (b : @HTTPBackendRef unit) (d : @HTTPRouteDestination unit) =>
       buildDestination "Service" "networking.istio.io" (fun s => s)
         (BackendRefOf b) "default" "cluster.local"
       = Ok (httpDestination d))
    [mkHTTPBackendRef (mkBackendRef None None "ratings" None (Some 9080) (Some 3)) []]
    [mkHTTPRouteDestination
       (mkDestination "ratings.default.svc.cluster.local" 9080) 0 None].
Proof.
  destruct (zero_weight_backends_excluded insertionSortReverse
              "Service" "networking.istio.io" (fun s => s)
              (fun _ : option unit => @None unit) (fun _ : unit => Ok tt)
              [] [] false "default" "cluster.local")
    as (_ & _ & _ & _ & _ & _ & Hrule).
  split.
  - destruct (Hrule
                (mkHTTPRouteRule (@nil unit) []
                   (Some [mkHTTPBackendRef
                            (mkBackendRef None None "reviews" None (Some 9080) (Some 0))
                            [];
                          mkHTTPBackendRef
                            (mkBackendRef None None "ratings" None (Some 9080) (Some 0))
                            []]))
                (mkHTTPRoute (@nil unit) (@None unit) None None
                   (Some (mkAbort (Float64.of_int 100) 503))
                   [mkHTTPRouteDestination
                      (mkDestination "reviews.default.svc.cluster.local" 9080) 50 None;
                    mkHTTPRouteDestination
                      (mkDestination "ratings.default.svc.cluster.local" 9080) 50 None]))
      as (_ & Hall & _).
    + vm_compute. reflexivity.
    + apply Hall. repeat constructor.
  - destruct (Hrule
                (mkHTTPRouteRule (@nil unit) []
                   (Some [mkHTTPBackendRef
                            (mkBackendRef None None "reviews" None (Some 9080) (Some 0))
                            [];
                          mkHTTPBackendRef
                            (mkBackendRef None None "ratings" None (Some 9080) (Some 3))
                            []]))
                (mkHTTPRoute (@nil unit) (@None unit) None None None
                   [mkHTTPRouteDestination
                      (mkDestination "ratings.default.svc.cluster.local" 9080) 0 None]))
      as (_ & _ & Hsome).
    + vm_compute. reflexivity.
    + apply Hsome. intros H. inversion H as [ | ? ? _ H2]. inversion H2 as [ | ? ? H3 _].
      discriminate H3.
Defined.


